(** * Spelling suggestions of the Pokemon lookup: edit distance and ranking

    A shallow embedding of class [Suggest] of [pokemon.py]
    ([lev_distance], [suggestions]) together with the Python primitives it
    relies on: [str.lower], the [in] test on strings, list indexing and
    item assignment, [min] and the insertion-ordered [dict].

    Python exceptions ([IndexError], [KeyError], [ValueError]) are the
    [None] of the option monad; every indexing operation of the source is
    checked in the model, so that "never raises" is a theorem and not an
    assumption. *)

From stdpp Require Import base decidable option numbers list strings pretty.
From Stdlib Require Import ZArith NArith Lia.

Local Open Scope Z_scope.

(** ** Python strings *)

(** A [str] is a sequence of Unicode code points. *)
Abbreviation char := N (only parsing).
Abbreviation str := (list N).

(** The code points of an ASCII literal, to write examples legibly. *)
Definition py (s : string) : str :=
  Ascii.N_of_ascii <$> String.list_ascii_of_string s.

(** ** [str.lower]

    Python lowercases a string code point by code point with the case
    mappings of the Unicode Character Database (here version 14.0.0, the
    one of CPython 3.11). The tables are transcribed as ranges.

    Rows [(lo, hi, step, target)]: the code points [lo], [lo + step], ...
    up to [hi] have a one-code-point lowercase form, [target] for [lo] and
    then at the same offset. *)
Definition lowercase_ranges : list (N * N * N * N) :=
  [
   (65,90,1,97); (192,214,1,224); (216,222,1,248); (256,302,2,257);
   (306,310,2,307); (313,327,2,314); (330,374,2,331); (376,376,1,255);
   (377,381,2,378); (385,385,1,595); (386,388,2,387); (390,390,1,596);
   (391,391,1,392); (393,394,1,598); (395,395,1,396); (398,398,1,477);
   (399,399,1,601); (400,400,1,603); (401,401,1,402); (403,403,1,608);
   (404,404,1,611); (406,406,1,617); (407,407,1,616); (408,408,1,409);
   (412,412,1,623); (413,413,1,626); (415,415,1,629); (416,420,2,417);
   (422,422,1,640); (423,423,1,424); (425,425,1,643); (428,428,1,429);
   (430,430,1,648); (431,431,1,432); (433,434,1,650); (435,437,2,436);
   (439,439,1,658); (440,440,1,441); (444,444,1,445); (452,452,1,454);
   (453,453,1,454); (455,455,1,457); (456,456,1,457); (458,458,1,460);
   (459,475,2,460); (478,494,2,479); (497,497,1,499); (498,500,2,499);
   (502,502,1,405); (503,503,1,447); (504,542,2,505); (544,544,1,414);
   (546,562,2,547); (570,570,1,11365); (571,571,1,572); (573,573,1,410);
   (574,574,1,11366); (577,577,1,578); (579,579,1,384); (580,580,1,649);
   (581,581,1,652); (582,590,2,583); (880,882,2,881); (886,886,1,887);
   (895,895,1,1011); (902,902,1,940); (904,906,1,941); (908,908,1,972);
   (910,911,1,973); (913,929,1,945); (931,939,1,963); (975,975,1,983);
   (984,1006,2,985); (1012,1012,1,952); (1015,1015,1,1016); (1017,1017,1,1010);
   (1018,1018,1,1019); (1021,1023,1,891); (1024,1039,1,1104); (1040,1071,1,1072);
   (1120,1152,2,1121); (1162,1214,2,1163); (1216,1216,1,1231); (1217,1229,2,1218);
   (1232,1326,2,1233); (1329,1366,1,1377); (4256,4293,1,11520); (4295,4295,1,11559);
   (4301,4301,1,11565); (5024,5103,1,43888); (5104,5109,1,5112); (7312,7354,1,4304);
   (7357,7359,1,4349); (7680,7828,2,7681); (7838,7838,1,223); (7840,7934,2,7841);
   (7944,7951,1,7936); (7960,7965,1,7952); (7976,7983,1,7968); (7992,7999,1,7984);
   (8008,8013,1,8000); (8025,8031,2,8017); (8040,8047,1,8032); (8072,8079,1,8064);
   (8088,8095,1,8080); (8104,8111,1,8096); (8120,8121,1,8112); (8122,8123,1,8048);
   (8124,8124,1,8115); (8136,8139,1,8050); (8140,8140,1,8131); (8152,8153,1,8144);
   (8154,8155,1,8054); (8168,8169,1,8160); (8170,8171,1,8058); (8172,8172,1,8165);
   (8184,8185,1,8056); (8186,8187,1,8060); (8188,8188,1,8179); (8486,8486,1,969);
   (8490,8490,1,107); (8491,8491,1,229); (8498,8498,1,8526); (8544,8559,1,8560);
   (8579,8579,1,8580); (9398,9423,1,9424); (11264,11311,1,11312); (11360,11360,1,11361);
   (11362,11362,1,619); (11363,11363,1,7549); (11364,11364,1,637); (11367,11371,2,11368);
   (11373,11373,1,593); (11374,11374,1,625); (11375,11375,1,592); (11376,11376,1,594);
   (11378,11378,1,11379); (11381,11381,1,11382); (11390,11391,1,575); (11392,11490,2,11393);
   (11499,11501,2,11500); (11506,11506,1,11507); (42560,42604,2,42561); (42624,42650,2,42625);
   (42786,42798,2,42787); (42802,42862,2,42803); (42873,42875,2,42874); (42877,42877,1,7545);
   (42878,42886,2,42879); (42891,42891,1,42892); (42893,42893,1,613); (42896,42898,2,42897);
   (42902,42920,2,42903); (42922,42922,1,614); (42923,42923,1,604); (42924,42924,1,609);
   (42925,42925,1,620); (42926,42926,1,618); (42928,42928,1,670); (42929,42929,1,647);
   (42930,42930,1,669); (42931,42931,1,43859); (42932,42946,2,42933); (42948,42948,1,42900);
   (42949,42949,1,642); (42950,42950,1,7566); (42951,42953,2,42952); (42960,42960,1,42961);
   (42966,42968,2,42967); (42997,42997,1,42998); (65313,65338,1,65345); (66560,66599,1,66600);
   (66736,66771,1,66776); (66928,66938,1,66967); (66940,66954,1,66979); (66956,66962,1,66995);
   (66964,66965,1,67003); (68736,68786,1,68800); (71840,71871,1,71872); (93760,93791,1,93792);
   (125184,125217,1,125218)
  ]%N.

(** Code points with the property Case_Ignorable, as inclusive ranges. *)
Definition case_ignorable_ranges : list (N * N) :=
  [
   (39,39); (46,46); (58,58); (94,94); (96,96); (168,168);
   (173,173); (175,175); (180,180); (183,184); (688,879); (884,885);
   (890,890); (900,901); (903,903); (1155,1161); (1369,1369); (1375,1375);
   (1425,1469); (1471,1471); (1473,1474); (1476,1477); (1479,1479); (1524,1524);
   (1536,1541); (1552,1562); (1564,1564); (1600,1600); (1611,1631); (1648,1648);
   (1750,1757); (1759,1768); (1770,1773); (1807,1807); (1809,1809); (1840,1866);
   (1958,1968); (2027,2037); (2042,2042); (2045,2045); (2070,2093); (2137,2139);
   (2184,2184); (2192,2193); (2200,2207); (2249,2306); (2362,2362); (2364,2364);
   (2369,2376); (2381,2381); (2385,2391); (2402,2403); (2417,2417); (2433,2433);
   (2492,2492); (2497,2500); (2509,2509); (2530,2531); (2558,2558); (2561,2562);
   (2620,2620); (2625,2626); (2631,2632); (2635,2637); (2641,2641); (2672,2673);
   (2677,2677); (2689,2690); (2748,2748); (2753,2757); (2759,2760); (2765,2765);
   (2786,2787); (2810,2815); (2817,2817); (2876,2876); (2879,2879); (2881,2884);
   (2893,2893); (2901,2902); (2914,2915); (2946,2946); (3008,3008); (3021,3021);
   (3072,3072); (3076,3076); (3132,3132); (3134,3136); (3142,3144); (3146,3149);
   (3157,3158); (3170,3171); (3201,3201); (3260,3260); (3263,3263); (3270,3270);
   (3276,3277); (3298,3299); (3328,3329); (3387,3388); (3393,3396); (3405,3405);
   (3426,3427); (3457,3457); (3530,3530); (3538,3540); (3542,3542); (3633,3633);
   (3636,3642); (3654,3662); (3761,3761); (3764,3772); (3782,3782); (3784,3789);
   (3864,3865); (3893,3893); (3895,3895); (3897,3897); (3953,3966); (3968,3972);
   (3974,3975); (3981,3991); (3993,4028); (4038,4038); (4141,4144); (4146,4151);
   (4153,4154); (4157,4158); (4184,4185); (4190,4192); (4209,4212); (4226,4226);
   (4229,4230); (4237,4237); (4253,4253); (4348,4348); (4957,4959); (5906,5908);
   (5938,5939); (5970,5971); (6002,6003); (6068,6069); (6071,6077); (6086,6086);
   (6089,6099); (6103,6103); (6109,6109); (6155,6159); (6211,6211); (6277,6278);
   (6313,6313); (6432,6434); (6439,6440); (6450,6450); (6457,6459); (6679,6680);
   (6683,6683); (6742,6742); (6744,6750); (6752,6752); (6754,6754); (6757,6764);
   (6771,6780); (6783,6783); (6823,6823); (6832,6862); (6912,6915); (6964,6964);
   (6966,6970); (6972,6972); (6978,6978); (7019,7027); (7040,7041); (7074,7077);
   (7080,7081); (7083,7085); (7142,7142); (7144,7145); (7149,7149); (7151,7153);
   (7212,7219); (7222,7223); (7288,7293); (7376,7378); (7380,7392); (7394,7400);
   (7405,7405); (7412,7412); (7416,7417); (7468,7530); (7544,7544); (7579,7679);
   (8125,8125); (8127,8129); (8141,8143); (8157,8159); (8173,8175); (8189,8190);
   (8203,8207); (8216,8217); (8228,8228); (8231,8231); (8234,8238); (8288,8292);
   (8294,8303); (8305,8305); (8319,8319); (8336,8348); (8400,8432); (11388,11389);
   (11503,11505); (11631,11631); (11647,11647); (11744,11775); (11823,11823); (12293,12293);
   (12330,12333); (12337,12341); (12347,12347); (12441,12446); (12540,12542); (40981,40981);
   (42232,42237); (42508,42508); (42607,42610); (42612,42621); (42623,42623); (42652,42655);
   (42736,42737); (42752,42785); (42864,42864); (42888,42890); (42994,42996); (43000,43001);
   (43010,43010); (43014,43014); (43019,43019); (43045,43046); (43052,43052); (43204,43205);
   (43232,43249); (43263,43263); (43302,43309); (43335,43345); (43392,43394); (43443,43443);
   (43446,43449); (43452,43453); (43471,43471); (43493,43494); (43561,43566); (43569,43570);
   (43573,43574); (43587,43587); (43596,43596); (43632,43632); (43644,43644); (43696,43696);
   (43698,43700); (43703,43704); (43710,43711); (43713,43713); (43741,43741); (43756,43757);
   (43763,43764); (43766,43766); (43867,43871); (43881,43883); (44005,44005); (44008,44008);
   (44013,44013); (64286,64286); (64434,64450); (65024,65039); (65043,65043); (65056,65071);
   (65106,65106); (65109,65109); (65279,65279); (65287,65287); (65294,65294); (65306,65306);
   (65342,65342); (65344,65344); (65392,65392); (65438,65439); (65507,65507); (65529,65531);
   (66045,66045); (66272,66272); (66422,66426); (67456,67461); (67463,67504); (67506,67514);
   (68097,68099); (68101,68102); (68108,68111); (68152,68154); (68159,68159); (68325,68326);
   (68900,68903); (69291,69292); (69446,69456); (69506,69509); (69633,69633); (69688,69702);
   (69744,69744); (69747,69748); (69759,69761); (69811,69814); (69817,69818); (69821,69821);
   (69826,69826); (69837,69837); (69888,69890); (69927,69931); (69933,69940); (70003,70003);
   (70016,70017); (70070,70078); (70089,70092); (70095,70095); (70191,70193); (70196,70196);
   (70198,70199); (70206,70206); (70367,70367); (70371,70378); (70400,70401); (70459,70460);
   (70464,70464); (70502,70508); (70512,70516); (70712,70719); (70722,70724); (70726,70726);
   (70750,70750); (70835,70840); (70842,70842); (70847,70848); (70850,70851); (71090,71093);
   (71100,71101); (71103,71104); (71132,71133); (71219,71226); (71229,71229); (71231,71232);
   (71339,71339); (71341,71341); (71344,71349); (71351,71351); (71453,71455); (71458,71461);
   (71463,71467); (71727,71735); (71737,71738); (71995,71996); (71998,71998); (72003,72003);
   (72148,72151); (72154,72155); (72160,72160); (72193,72202); (72243,72248); (72251,72254);
   (72263,72263); (72273,72278); (72281,72283); (72330,72342); (72344,72345); (72752,72758);
   (72760,72765); (72767,72767); (72850,72871); (72874,72880); (72882,72883); (72885,72886);
   (73009,73014); (73018,73018); (73020,73021); (73023,73029); (73031,73031); (73104,73105);
   (73109,73109); (73111,73111); (73459,73460); (78896,78904); (92912,92916); (92976,92982);
   (92992,92995); (94031,94031); (94095,94111); (94176,94177); (94179,94180); (110576,110579);
   (110581,110587); (110589,110590); (113821,113822); (113824,113827); (118528,118573); (118576,118598);
   (119143,119145); (119155,119170); (119173,119179); (119210,119213); (119362,119364); (121344,121398);
   (121403,121452); (121461,121461); (121476,121476); (121499,121503); (121505,121519); (122880,122886);
   (122888,122904); (122907,122913); (122915,122916); (122918,122922); (123184,123197); (123566,123566);
   (123628,123631); (125136,125142); (125252,125259); (127995,127999); (917505,917505); (917536,917631);
   (917760,917999)
  ]%N.

(** Code points with the property Cased that are not Case_Ignorable, as
    inclusive ranges (the only ones whose casedness [str.lower] looks at). *)
Definition cased_ranges : list (N * N) :=
  [
   (65,90); (97,122); (170,170); (181,181); (186,186); (192,214);
   (216,246); (248,442); (444,447); (452,659); (661,687); (880,883);
   (886,887); (891,893); (895,895); (902,902); (904,906); (908,908);
   (910,929); (931,1013); (1015,1153); (1162,1327); (1329,1366); (1376,1416);
   (4256,4293); (4295,4295); (4301,4301); (4304,4346); (4349,4351); (5024,5109);
   (5112,5117); (7296,7304); (7312,7354); (7357,7359); (7424,7467); (7531,7543);
   (7545,7578); (7680,7957); (7960,7965); (7968,8005); (8008,8013); (8016,8023);
   (8025,8025); (8027,8027); (8029,8029); (8031,8061); (8064,8116); (8118,8124);
   (8126,8126); (8130,8132); (8134,8140); (8144,8147); (8150,8155); (8160,8172);
   (8178,8180); (8182,8188); (8450,8450); (8455,8455); (8458,8467); (8469,8469);
   (8473,8477); (8484,8484); (8486,8486); (8488,8488); (8490,8493); (8495,8500);
   (8505,8505); (8508,8511); (8517,8521); (8526,8526); (8544,8575); (8579,8580);
   (9398,9449); (11264,11387); (11390,11492); (11499,11502); (11506,11507); (11520,11557);
   (11559,11559); (11565,11565); (42560,42605); (42624,42651); (42786,42863); (42865,42887);
   (42891,42894); (42896,42954); (42960,42961); (42963,42963); (42965,42969); (42997,42998);
   (43002,43002); (43824,43866); (43872,43880); (43888,43967); (64256,64262); (64275,64279);
   (65313,65338); (65345,65370); (66560,66639); (66736,66771); (66776,66811); (66928,66938);
   (66940,66954); (66956,66962); (66964,66965); (66967,66977); (66979,66993); (66995,67001);
   (67003,67004); (68736,68786); (68800,68850); (71840,71903); (93760,93823); (119808,119892);
   (119894,119964); (119966,119967); (119970,119970); (119973,119974); (119977,119980); (119982,119993);
   (119995,119995); (119997,120003); (120005,120069); (120071,120074); (120077,120084); (120086,120092);
   (120094,120121); (120123,120126); (120128,120132); (120134,120134); (120138,120144); (120146,120485);
   (120488,120512); (120514,120538); (120540,120570); (120572,120596); (120598,120628); (120630,120654);
   (120656,120686); (120688,120712); (120714,120744); (120746,120770); (120772,120779); (122624,122633);
   (122635,122654); (125184,125251); (127280,127305); (127312,127337); (127344,127369)
  ]%N.

(** Membership of a code point in a table of inclusive ranges. *)
Definition in_ranges (c : char) (t : list (N * N)) : bool :=
  existsb (λ r, (r.1 <=? c)%N && (c <=? r.2)%N) t.

Definition is_case_ignorable (c : char) : bool := in_ranges c case_ignorable_ranges.
Definition is_cased (c : char) : bool := in_ranges c cased_ranges.

(** Simple lowercase mapping of one code point: the first row of
    [lowercase_ranges] that contains it, the code point itself otherwise. *)
Fixpoint to_lower_in (t : list (N * N * N * N)) (c : char) : char :=
  match t with
  | [] => c
  | (lo, hi, step, target) :: t' =>
      if (lo <=? c)%N && (c <=? hi)%N && ((c - lo) mod step =? 0)%N
      then (target + (c - lo))%N
      else to_lower_in t' c
  end.

Definition to_lower (c : char) : char := to_lower_in lowercase_ranges c.

(** Full lowercase mapping: U+0130 (capital I with dot above) is the one
    code point whose lowercase form is two code points long. *)
Definition to_lower_full (c : char) : str :=
  if (c =? 304)%N then [105; 775]%N else [to_lower c].

(** The Final_Sigma context of a capital sigma: preceded by a cased letter
    and not followed by one, case-ignorable code points being skipped on
    both sides. [before] is the text to the left, nearest code point
    first; [after] is the text to the right. *)
Fixpoint skip_ignorable (s : str) : str :=
  match s with
  | c :: s' => if is_case_ignorable c then skip_ignorable s' else s
  | [] => []
  end.

Definition final_sigma (before after : str) : bool :=
  match skip_ignorable before with
  | [] => false
  | c :: _ =>
      is_cased c &&
      match skip_ignorable after with
      | [] => true
      | c' :: _ => negb (is_cased c')
      end
  end.

Definition lower_ucs4 (before : str) (c : char) (after : str) : str :=
  if (c =? 931)%N
  then [if final_sigma before after then 962 else 963]%N
  else to_lower_full c.

Fixpoint do_lower (before rest : str) : str :=
  match rest with
  | [] => []
  | c :: after => lower_ucs4 before c after ++ do_lower (c :: before) after
  end.

(** [s.lower()] *)
Definition lower (s : str) : str := do_lower [] s.

(** [sub in s] on strings: [sub] occurs in [s] as a contiguous run. *)
Fixpoint starts_with (sub s : str) : bool :=
  match sub, s with
  | [], _ => true
  | _ :: _, [] => false
  | a :: sub', b :: s' => bool_decide (a = b) && starts_with sub' s'
  end.

Fixpoint py_in (sub s : str) : bool :=
  starts_with sub s ||
  match s with
  | [] => false
  | _ :: s' => py_in sub s'
  end.

(** ** Python lists, [min] and loops *)

(** [l[i] = x] for [0 <= i]; [IndexError] out of range. Reading [l[i]]
    is stdpp's [l !! i]. *)
Definition py_set {A} (l : list A) (i : nat) (x : A) : option (list A) :=
  if decide (i < length l)%nat then Some (<[i:=x]> l) else None.

(** [min(l)]; [ValueError] on the empty list. *)
Definition py_min (l : list Z) : option Z :=
  match l with
  | [] => None
  | x :: l' => Some (foldl Z.min x l')
  end.

(** [for x in xs: body], the loop state threaded through the body. *)
Fixpoint for_in {A S : Type} (xs : list A) (body : A → S → option S) (s : S)
  : option S :=
  match xs with
  | [] => Some s
  | x :: xs' => s' ← body x s; for_in xs' body s'
  end.

(** [range(n)] *)
Definition range (n : nat) : list nat := seq 0 n.

(** ** The distance matrix *)

Abbreviation matrix := (list (list Z)).

(** [m[i][j]] *)
Definition matrix_get (m : matrix) (i j : nat) : option Z :=
  r ← m !! i; r !! j.

(** [m[i][j] = v]: the row object [m[i]] is updated in place. *)
Definition matrix_set (m : matrix) (i j : nat) (v : Z) : option matrix :=
  r ← m !! i; r' ← py_set r j v; py_set m i r'.

(** [m[i].append(v)] *)
Definition matrix_row_append (m : matrix) (i : nat) (v : Z) : option matrix :=
  r ← m !! i; py_set m i (r ++ [v]).

(** ** [Suggest.lev_distance] *)

(** First row, then one row per character of [str2]: its index followed by
    zeros. *)
Definition init_matrix (str1 str2 : str) : option matrix :=
  let m : matrix := [] in
  let m := m ++ [(λ index, Z.of_nat index) <$> range (length str1 + 1)] in
  for_in (range (length str2)) (λ row m,
    let m := m ++ [[Z.of_nat row + 1]] in
    for_in (range (length str1)) (λ _col m,
      matrix_row_append m (row + 1) 0) m) m.

(** Body of the inner loop that computes the edit distance. *)
Definition fill_cell (str1 str2 : str) (index2 index1 : nat) (m : matrix)
  : option matrix :=
  c2 ← str2 !! index2;
  c1 ← str1 !! index1;
  if decide (c2 = c1) then
    v ← matrix_get m index2 index1;
    matrix_set m (index2 + 1) (index1 + 1) v
  else
    top ← matrix_get m index2 index1;
    left ← matrix_get m index2 (index1 + 1);
    bottom ← matrix_get m (index2 + 1) index1;
    min_of_three ← py_min [top; left; bottom];
    matrix_set m (index2 + 1) (index1 + 1) (min_of_three + 1).

Definition fill_matrix (str1 str2 : str) (m : matrix) : option matrix :=
  for_in (range (length str2)) (λ index2 m,
    for_in (range (length str1)) (λ index1 m,
      fill_cell str1 str2 index2 index1 m) m) m.

Definition lev_distance (str1 str2 : str) : option Z :=
  let str1 := lower str1 in
  let str2 := lower str2 in
  m ← init_matrix str1 str2;
  m ← fill_matrix str1 str2 m;
  r ← last m;
  last r.

(** ** Python's [dict]: insertion-ordered, one entry per key *)

Abbreviation pydict := (list (list N * Z)).

(** [d[k] = v]: an existing key keeps its place, a new key goes last. *)
Fixpoint dict_set (k : str) (v : Z) (d : pydict) : pydict :=
  match d with
  | [] => [(k, v)]
  | (k', v') :: d' =>
      if decide (k' = k) then (k', v) :: d' else (k', v') :: dict_set k v d'
  end.

(** [d[k]]; [KeyError] when absent. *)
Fixpoint dict_get (k : str) (d : pydict) : option Z :=
  match d with
  | [] => None
  | (k', v') :: d' => if decide (k' = k) then Some v' else dict_get k d'
  end.

Definition dict_keys (d : pydict) : list str := d.*1.
Definition dict_values (d : pydict) : list Z := d.*2.

(** ** [Suggest.suggestions] *)

(** Body of the first loop: the direct (substring) test, and the edit
    distance stored for every word. *)
Definition scan_word (user_input : str) (word : str)
    (st : list str * pydict) : option (list str * pydict) :=
  let '(direct_suggestions, hit_dict) := st in
  let direct_suggestions :=
    if py_in user_input (lower word)
    then direct_suggestions ++ [word]
    else direct_suggestions in
  d ← lev_distance user_input word;
  Some (direct_suggestions, dict_set word d hit_dict).

Definition scan (database : list str) (user_input : str)
  : option (list str * pydict) :=
  for_in database (scan_word user_input) ([], []).

(** Body of the second loop, over the keys of [hit_dict]. *)
Definition pick_best (hit_dict : pydict) (word : str) (best_match : list str)
  : option (list str) :=
  d ← dict_get word hit_dict;
  least ← py_min (dict_values hit_dict);
  Some (if decide (d = least) then best_match ++ [word] else best_match).

Definition suggestions (database : list str) (user_input : str)
  : option (list str) :=
  st ← scan database user_input;
  let '(direct_suggestions, hit_dict) := st in
  match direct_suggestions with
  | _ :: _ => Some direct_suggestions
  | [] => for_in (dict_keys hit_dict) (pick_best hit_dict) []
  end.

(** The list collected by the substring pass. *)
Definition direct_pass (database : list str) (user_input : str)
  : option (list str) :=
  fst <$> scan database user_input.

(** ** Reference definitions used in the statements *)

(** The edit-distance recurrence on two sequences read from their last
    element backwards: [u] and [v] are reversed prefixes, the head being
    the last character of the prefix. *)
Fixpoint lev_rec (u v : str) {struct u} : nat :=
  match u with
  | [] => length v
  | x :: u' =>
      (fix against (v : str) : nat :=
         match v with
         | [] => length u
         | y :: v' =>
             if decide (x = y) then lev_rec u' v'
             else S (lev_rec u' v' `min` (lev_rec u' v `min` against v'))
         end) v
  end.

(** The value the filled matrix holds at row [i], column [j]: the cost
    between the first [i] characters of [str2] and the first [j] of
    [str1]. *)
Definition cell_value (str1 str2 : str) (i j : nat) : Z :=
  Z.of_nat (lev_rec (reverse (take i str2)) (reverse (take j str1))).

(** The matrix as the first two loops of [lev_distance] leave it. *)
Definition blank_matrix (n1 n2 : nat) : matrix :=
  (Z.of_nat <$> seq 0 (n1 + 1)) ::
  ((λ row, (Z.of_nat row + 1) :: replicate n1 0) <$> seq 0 n2).

(** The distance as a total function. *)
Definition edit_distance (str1 str2 : str) : Z :=
  Z.of_nat (lev_rec (reverse (lower str2)) (reverse (lower str1))).

(** [sub] occurs in [s] as a contiguous run of characters. *)
Definition substring (sub s : str) : Prop :=
  ∃ pre post, s = pre ++ sub ++ post.

(** The elements of a list at their first occurrence, in order. *)
Fixpoint unseen (seen l : list str) : list str :=
  match l with
  | [] => []
  | x :: l' =>
      if decide (x ∈ seen) then unseen seen l' else x :: unseen (seen ++ [x]) l'
  end.

Definition first_occurrences (l : list str) : list str := unseen [] l.

(** A matrix of [n2 + 1] rows of [n1 + 1] entries each. *)
Definition shaped (n1 n2 : nat) (m : matrix) : Prop :=
  length m = S n2 ∧ Forall (λ r, length r = S n1) m.

(** The state of the matrix while the distance is computed: rows up to
    [i] are final, and so is row [i + 1] up to column [j]. *)
Definition filled (str1 str2 : str) (i j : nat) (m : matrix) : Prop :=
  shaped (length str1) (length str2) m ∧
  ∀ r c, (r ≤ length str2)%nat → (c ≤ length str1)%nat →
    (r ≤ i ∨ c = 0 ∨ (r = S i ∧ c ≤ j))%nat →
    matrix_get m r c = Some (cell_value str1 str2 r c).

(** The test of the substring pass on one word. *)
Definition direct_hit (user_input word : str) : Prop :=
  py_in user_input (lower word).

(** The hit map once the first loop has visited [database], from the
    hit map [hit_dict] it started with. *)
Definition record_all (user_input : str) (database : list str)
    (hit_dict : pydict) : pydict :=
  foldl (λ h word, dict_set word (edit_distance user_input word) h)
        hit_dict database.

(** Every entry of the hit map holds the distance of its key. *)
Definition consistent (user_input : str) (hit_dict : pydict) : Prop :=
  Forall (λ kv, kv.2 = edit_distance user_input kv.1) hit_dict.

(** ** Edit scripts *)

(** One single-character edit of a string: an insertion, a deletion or a
    substitution. *)
Inductive edit : str → str → Prop :=
  | edit_insert pre c post : edit (pre ++ post) (pre ++ c :: post)
  | edit_delete pre c post : edit (pre ++ c :: post) (pre ++ post)
  | edit_substitute pre c c' post : edit (pre ++ c :: post) (pre ++ c' :: post).

(** [edits n s t]: [n] single-character edits in a row turn [s] into [t]. *)
Inductive edits : nat → str → str → Prop :=
  | edits_done s : edits 0 s s
  | edits_step n s s' t : edit s s' → edits n s' t → edits (S n) s t.

(** ** Python dicts with any keys and values *)

(** [d[k] = v]: an existing key keeps its place, a new key goes last. *)
Fixpoint setitem {K V} `{EqDecision K} (k : K) (v : V) (d : list (K * V))
  : list (K * V) :=
  match d with
  | [] => [(k, v)]
  | (k', v') :: d' =>
      if decide (k' = k) then (k', v) :: d' else (k', v') :: setitem k v d'
  end.

(** [d.values()] and [d.items()] follow the insertion order; the items
    are the list itself. *)
Definition values {K V} (d : list (K * V)) : list V := d.*2.

(** ** Printed text *)

(** Standard output as the list of the strings printed, one per call of
    [print] (which ends each with a newline). *)
Abbreviation stdout := (list (list N)) (only parsing).

Definition newline : str := [10%N].

(** [f"{s:<width>s}"]: [s] padded with spaces on the right up to [width]
    code points. *)
Definition format_s (width : nat) (s : str) : str :=
  s ++ replicate (width - length s) 32%N.

(** [f"{n}"] for a non-negative integer. *)
Definition format_int (n : nat) : str := py (pretty n).

(** ** class [Pokemon] *)

Module Pokemon.

(** The attributes of a [Pokemon]: [headers] is only declared by
    [__init__], and is unset until [fetch] has read a first row. *)
Record t : Type := mk {
  headers : option (list str);
  names : list str;
  stats : list (nat * list str)
}.

(** Body of the loop of [fetch] over [enumerate(csv_reader)]: the loop
    state is the object and the local dictionary [stats]. *)
Definition fetch_row (entry : nat * list str) (st : t * list (nat * list str))
  : option (t * list (nat * list str)) :=
  let '(rownum, row) := entry in
  let '(self, stats) := st in
  if decide (rownum = 0%nat) then
    Some (mk (Some row) (names self) (Pokemon.stats self), stats)
  else
    let pokeid := rownum in
    let other_stats := row in
    let stats := setitem pokeid other_stats stats in
    name ← row !! 1%nat;
    Some (mk (headers self) (names self ++ [name]) (Pokemon.stats self), stats).

(** [fetch], from the rows that [csv.reader] yields for the downloaded
    text on: the download and the parsing of the text are outside the
    model. Returns the object as the loop left it and the dictionary. *)
Definition fetch (self : t) (csv_reader : list (list str))
  : option (t * list (nat * list str)) :=
  let stats : list (nat * list str) := [] in
  for_in (zip (seq 0 (length csv_reader)) csv_reader) fetch_row (self, stats).

(** [__init__]: [names] starts empty and [stats] is what [fetch]
    returns; nothing reads [stats] before. *)
Definition init (csv_reader : list (list str)) : option t :=
  let self := mk None [] [] in
  st ← fetch self csv_reader;
  Some (mk (headers st.1) (names st.1) st.2).

(** The inner loop of [get]: the fields of one row under their headers. *)
Definition fill_info (headers each : list str) : list (str * str) :=
  foldl (λ info kv, setitem kv.1 kv.2 info) [] (zip headers each).

(** The loop of [get] over [self.stats.values()]; falling off its end
    returns Python's [None], the inner [None] here. *)
Fixpoint get_loop (self : t) (find : str) (rows : list (list str))
  : option (option (list (str * str))) :=
  match rows with
  | [] => Some None
  | each :: rest =>
      field ← each !! 1%nat;
      let name := lower field in
      if decide (name = lower find) then
        hs ← headers self;
        Some (Some (fill_info hs each))
      else get_loop self find rest
  end.

Definition get (self : t) (find : str)
  : option (option (list (str * str))) :=
  get_loop self find (values (stats self)).

(** The loop of [randname] over [enumerate(self.stats.values())], left
    at the row whose number is [randnum]. *)
Fixpoint randname_loop (randnum : nat) (name : str)
    (rows : list (nat * list str)) : option str :=
  match rows with
  | [] => Some name
  | (num, each) :: rest =>
      if decide (num = randnum) then each !! 1%nat
      else randname_loop randnum name rest
  end.

(** [randname], [randnum] being what [random.randrange(800)] drew. *)
Definition randname (self : t) (randnum : nat) : option str :=
  let rows := values (stats self) in
  randname_loop randnum [] (zip (seq 0 (length rows)) rows).

End Pokemon.

(** ** class [App] *)

Module App.

Record t : Type := mk {
  pokemon : Pokemon.t;
  randname : str;
  user : str;
  userinput : str
}.

(** [if info:] is taken for a dictionary that is not empty. *)
Definition truthy (info : option (list (str * str))) : bool :=
  match info with
  | Some (_ :: _) => true
  | _ => false
  end.

(** The lines printed for a record that was found. *)
Definition found_lines (self : t) (info : list (str * str)) : stdout :=
  (if decide (user self = [])
   then py "Picking a random name '" ++ userinput self ++ py "'" ++ newline
   else py "Showing info about '" ++ user self ++ py "'" ++ newline) ::
  ((λ kv, format_s 8 (py " ") ++ format_s 10 kv.1 ++ py " " ++ kv.2) <$> info).

(** [showinfo]; it calls itself on the single suggestion, [fuel] bounds
    the depth of these calls. [out] is what was printed before. *)
Fixpoint showinfo (fuel : nat) (self : t) (userinput : str) (out : stdout)
  : option stdout :=
  match fuel with
  | O => None
  | S fuel =>
      info ← Pokemon.get (pokemon self) userinput;
      if truthy info then
        Some (out ++ found_lines self (default [] info))
      else
        suggestions ← suggestions (Pokemon.names (pokemon self))
                                  (App.userinput self);
        let suggestions_len := length suggestions in
        if decide (suggestions_len = 1%nat) then
          first ← suggestions !! 0%nat;
          showinfo fuel self first
            (out ++ [py "Showing results for '" ++ first ++
                     py "' instead of" ++ newline ++
                     py "'" ++ App.userinput self ++ py "'" ++ newline])
        else if decide (suggestions_len ≤ 5)%nat then
          Some (out ++
                (py "Pokemon Not Found! Can't find '" ++ App.userinput self ++
                 py "'." ++ newline ++ newline ++ py "Did you mean?") ::
                ((λ suggestion, [226; 8212; 32]%N ++ suggestion) <$> suggestions))
        else
          Some (out ++ [py "There are " ++ format_int suggestions_len ++
                        py " matches found for your" ++ newline ++
                        py "query, please be more specific!" ++ newline])
  end.

(** [__init__], from the rows of the dataset, the number drawn by
    [randname] and the line read by [input()]. *)
Definition init (fuel : nat) (csv_reader : list (list str)) (randnum : nat)
    (line : str) : option stdout :=
  pokemon ← Pokemon.init csv_reader;
  randname ← Pokemon.randname pokemon randnum;
  let user := line in
  let userinput := if decide (user = []) then randname else user in
  showinfo fuel (mk pokemon randname user userinput) userinput [].

End App.

(** A row of [get]'s loop that has a name, which is not [find] up to
    letter case. *)
Definition other_name (find : str) (row : list str) : Prop :=
  ∃ field, row !! 1%nat = Some field ∧ lower field ≠ lower find.

(** A row whose name is [find] up to letter case. *)
Definition has_name (find : str) (row : list str) : Prop :=
  ∃ field, row !! 1%nat = Some field ∧ lower field = lower find.

(** * Properties *)

(** ** Loops *)

Section Loops.
Context {A St : Type}.
Implicit Types (body : A → St → option St) (s : St).

(** Invariant rule: a loop whose body preserves [I] on the elements of
    [xs] runs to completion and establishes [I] for the whole list. *)
Lemma for_in_invariant (I : list A → St → Prop) xs body s :
  I [] s →
  (∀ done x rest s, xs = done ++ x :: rest → I done s →
     ∃ s', body x s = Some s' ∧ I (done ++ [x]) s') →
  ∃ s', for_in xs body s = Some s' ∧ I xs s'.
Proof.
  intros H0 Hstep.
  assert (G : ∀ rest done s, xs = done ++ rest → I done s →
            ∃ s', for_in rest body s = Some s' ∧ I xs s').
  { induction rest as [|x rest IH]; intros done s0 Hxs HI.
    - rewrite app_nil_r in Hxs. subst. eauto.
    - destruct (Hstep done x rest s0 Hxs HI) as (s1 & Hb & HI1).
      simpl. rewrite Hb. simpl. apply (IH (done ++ [x])); [|done].
      by rewrite <-app_assoc. }
  by apply (G xs [] s).
Qed.
End Loops.

(** The same rule for [for i in range(n)], the invariant indexed by the
    number of iterations made. *)
Lemma for_in_range_invariant {St : Type} (I : nat → St → Prop) n
    (body : nat → St → option St) (s : St) :
  I 0%nat s →
  (∀ i s, (i < n)%nat → I i s → ∃ s', body i s = Some s' ∧ I (S i) s') →
  ∃ s', for_in (range n) body s = Some s' ∧ I n s'.
Proof.
  intros H0 Hstep.
  destruct (for_in_invariant (λ done s, I (length done) s) (range n) body s)
    as (s' & Hrun & HI); [done| |].
  - intros done x rest s0 Hsplit HI.
    assert (Hx : x = length done ∧ (x < n)%nat).
    { assert (Hl : range n !! length done = Some x).
      { rewrite Hsplit. by rewrite list_lookup_middle. }
      unfold range in Hl. apply lookup_seq in Hl. lia. }
    destruct Hx as [-> Hlt].
    destruct (Hstep _ s0 Hlt HI) as (s1 & Hb & HI1).
    exists s1. split; [done|]. rewrite length_app. simpl.
    by replace (length done + 1)%nat with (S (length done)) by lia.
  - exists s'. split; [done|]. unfold range in HI. by rewrite length_seq in HI.
Qed.

(** ** The recurrence *)

Lemma lev_rec_nil_l v : lev_rec [] v = length v.
Proof. done. Qed.

Lemma lev_rec_nil_r u : lev_rec u [] = length u.
Proof. by destruct u. Qed.

Lemma lev_rec_cons x u y v :
  lev_rec (x :: u) (y :: v) =
    if decide (x = y) then lev_rec u v
    else S (lev_rec u v `min` (lev_rec u (y :: v) `min` lev_rec (x :: u) v)).
Proof. done. Qed.

Lemma lev_rec_sym u v : lev_rec u v = lev_rec v u.
Proof.
  revert v. induction u as [|x u IHu]; intros v.
  - by rewrite lev_rec_nil_l, lev_rec_nil_r.
  - induction v as [|y v IHv]; [done|].
    rewrite !lev_rec_cons.
    destruct (decide (x = y)) as [->|Hne].
    + rewrite decide_True by done. apply IHu.
    + rewrite decide_False by congruence.
      rewrite IHv, (IHu v), (IHu (y :: v)). lia.
Qed.

Lemma lev_rec_refl u : lev_rec u u = 0%nat.
Proof.
  induction u as [|x u IH]; [done|].
  rewrite lev_rec_cons. by rewrite decide_True.
Qed.

Lemma lev_rec_lower_bound u v :
  (length u - length v ≤ lev_rec u v ∧ length v - length u ≤ lev_rec u v)%nat.
Proof.
  revert v. induction u as [|x u IHu]; intros v.
  - rewrite lev_rec_nil_l. simpl. lia.
  - induction v as [|y v IHv]; [simpl; lia|].
    rewrite lev_rec_cons.
    pose proof (IHu v). pose proof (IHu (y :: v)).
    destruct (decide (x = y)); simpl in *; lia.
Qed.

(** ** Lists and the matrix *)

Lemma py_set_Some {A} (l : list A) i x :
  (i < length l)%nat → py_set l i x = Some (<[i:=x]> l).
Proof. intros. unfold py_set. by rewrite decide_True. Qed.

Lemma py_min_three a b c : py_min [a; b; c] = Some (Z.min (Z.min a b) c).
Proof. done. Qed.

Lemma foldl_min_spec l a :
  (foldl Z.min a l = a ∨ foldl Z.min a l ∈ l) ∧
  foldl Z.min a l ≤ a ∧ ∀ x, x ∈ l → foldl Z.min a l ≤ x.
Proof.
  revert a. induction l as [|b l IH]; intros a; simpl.
  - split; [by left|]. split; [lia|]. by intros x ?%elem_of_nil.
  - destruct (IH (Z.min a b)) as (Hin & Hle & Hall). split; [|split].
    + destruct Hin as [Heq|Hin]; [|right; by apply elem_of_cons; right].
      rewrite Heq. destruct (Z.min_spec a b) as [[_ ->]|[_ ->]]; [by left|].
      right. apply elem_of_cons. by left.
    + lia.
    + intros x [->|Hx]%elem_of_cons; [lia|by apply Hall].
Qed.

Lemma py_min_spec l m :
  py_min l = Some m → m ∈ l ∧ ∀ x, x ∈ l → m ≤ x.
Proof.
  destruct l as [|a l]; [done|]. simpl. intros [= <-].
  destruct (foldl_min_spec l a) as (Hin & Hle & Hall). split.
  - apply elem_of_cons. destruct Hin; [by left|by right].
  - intros x [->|Hx]%elem_of_cons; [done|by apply Hall].
Qed.

Lemma py_min_is_Some l : l ≠ [] → is_Some (py_min l).
Proof. destruct l; [done|]. intros _. by eexists. Qed.

Lemma shaped_get n1 n2 m i j :
  shaped n1 n2 m → (i ≤ n2)%nat → (j ≤ n1)%nat → is_Some (matrix_get m i j).
Proof.
  intros [Hlen Hrows] Hi Hj. unfold matrix_get.
  destruct (lookup_lt_is_Some_2 m i) as [r Hr]; [lia|].
  rewrite Hr. simpl. apply lookup_lt_is_Some_2.
  rewrite Forall_lookup in Hrows. rewrite (Hrows _ _ Hr). lia.
Qed.

(** Item assignment inside the matrix succeeds, keeps the shape and
    changes the one cell. *)
Lemma shaped_set n1 n2 m i j v :
  shaped n1 n2 m → (i ≤ n2)%nat → (j ≤ n1)%nat →
  ∃ m', matrix_set m i j v = Some m' ∧ shaped n1 n2 m' ∧
        matrix_get m' i j = Some v ∧
        ∀ r c, (r, c) ≠ (i, j) → matrix_get m' r c = matrix_get m r c.
Proof.
  intros [Hlen Hrows] Hi Hj. unfold matrix_set.
  destruct (lookup_lt_is_Some_2 m i) as [row Hrow]; [lia|].
  assert (Hrl : length row = S n1).
  { rewrite Forall_lookup in Hrows. by apply (Hrows _ _ Hrow). }
  rewrite Hrow. simpl.
  rewrite (py_set_Some row) by lia. simpl.
  rewrite (py_set_Some m) by lia.
  eexists. split; [done|]. split; [|split].
  - split; [by rewrite length_insert|].
    apply Forall_insert; [done|]. by rewrite length_insert.
  - unfold matrix_get. rewrite list_lookup_insert_eq by lia. simpl.
    apply list_lookup_insert_eq. lia.
  - intros r c Hne. unfold matrix_get.
    destruct (decide (r = i)) as [->|Hr].
    + rewrite list_lookup_insert_eq by lia. rewrite Hrow. simpl.
      apply list_lookup_insert_ne. congruence.
    + by rewrite list_lookup_insert_ne.
Qed.

(** ** [lev_distance]: the matrix is built without an indexing error *)

Lemma blank_matrix_length n1 n2 : length (blank_matrix n1 n2) = S n2.
Proof. unfold blank_matrix. simpl. by rewrite length_fmap, length_seq. Qed.

Lemma blank_matrix_S n1 row :
  blank_matrix n1 (S row) =
    blank_matrix n1 row ++ [(Z.of_nat row + 1) :: replicate n1 0].
Proof. unfold blank_matrix. by rewrite seq_S, fmap_app. Qed.

Lemma init_matrix_eq str1 str2 :
  init_matrix str1 str2 = Some (blank_matrix (length str1) (length str2)).
Proof.
  unfold init_matrix. set (n1 := length str1).
  match goal with
  | |- for_in _ ?body ?m0 = _ =>
      destruct (for_in_range_invariant (λ row m, m = blank_matrix n1 row)
                  (length str2) body m0) as (m & Hrun & ->); [done| |done]
  end.
  intros row ? Hrow ->.
  match goal with
  | |- ∃ _, for_in _ ?body ?m0 = _ ∧ _ =>
      destruct (for_in_range_invariant
                  (λ k m, m = blank_matrix n1 row ++
                                [(Z.of_nat row + 1) :: replicate k 0])
                  n1 body m0) as (m & Hrun & ->); [done| |]
  end.
  - intros k ? Hk ->. unfold matrix_row_append.
    rewrite list_lookup_middle by (rewrite blank_matrix_length; lia).
    cbn [mbind option_bind]. rewrite py_set_Some
      by (rewrite length_app, blank_matrix_length; simpl; lia).
    eexists. split; [done|].
    rewrite insert_app_r_alt by (rewrite blank_matrix_length; lia).
    rewrite blank_matrix_length.
    replace (row + 1 - S row)%nat with 0%nat by lia.
    by rewrite replicate_S_end.
  - exists (blank_matrix n1 (S row)). by rewrite blank_matrix_S.
Qed.

Lemma blank_matrix_shaped n1 n2 : shaped n1 n2 (blank_matrix n1 n2).
Proof.
  split; [apply blank_matrix_length|].
  unfold blank_matrix. apply Forall_cons. split.
  - rewrite length_fmap, length_seq. lia.
  - apply Forall_fmap, Forall_forall. intros row _. simpl.
    by rewrite length_replicate.
Qed.

Lemma blank_matrix_row0 n1 n2 j :
  (j ≤ n1)%nat → matrix_get (blank_matrix n1 n2) 0 j = Some (Z.of_nat j).
Proof.
  intros Hj. unfold matrix_get, blank_matrix. simpl.
  rewrite list_lookup_fmap, lookup_seq_lt by lia. done.
Qed.

Lemma blank_matrix_col0 n1 n2 i :
  (i ≤ n2)%nat → matrix_get (blank_matrix n1 n2) i 0 = Some (Z.of_nat i).
Proof.
  intros Hi. destruct i as [|i]; [apply blank_matrix_row0; lia|].
  unfold matrix_get, blank_matrix. simpl.
  rewrite list_lookup_fmap, lookup_seq_lt by lia. simpl. f_equal. lia.
Qed.

(** ** [lev_distance]: the matrix holds the recurrence *)

Lemma cell_value_row0 str1 str2 j :
  (j ≤ length str1)%nat → cell_value str1 str2 0 j = Z.of_nat j.
Proof.
  intros Hj. unfold cell_value. rewrite take_0. simpl.
  rewrite length_reverse, length_take. f_equal. lia.
Qed.

Lemma cell_value_col0 str1 str2 i :
  (i ≤ length str2)%nat → cell_value str1 str2 i 0 = Z.of_nat i.
Proof.
  intros Hi. unfold cell_value. rewrite take_0, lev_rec_nil_r.
  rewrite length_reverse, length_take. f_equal. lia.
Qed.

Lemma cell_value_step str1 str2 i j c1 c2 :
  str2 !! i = Some c2 → str1 !! j = Some c1 →
  cell_value str1 str2 (S i) (S j) =
    if decide (c2 = c1) then cell_value str1 str2 i j
    else Z.min (Z.min (cell_value str1 str2 i j)
                      (cell_value str1 str2 i (S j)))
               (cell_value str1 str2 (S i) j) + 1.
Proof.
  intros H2 H1. unfold cell_value.
  rewrite (take_S_r str2 i c2), (take_S_r str1 j c1) by done.
  rewrite !reverse_snoc, lev_rec_cons.
  destruct (decide (c2 = c1)); [done|]. lia.
Qed.

Lemma blank_matrix_filled str1 str2 :
  filled str1 str2 0 0 (blank_matrix (length str1) (length str2)).
Proof.
  split; [apply blank_matrix_shaped|].
  intros r c Hr Hc Hknown.
  destruct (decide (c = 0%nat)) as [->|Hc0].
  - rewrite blank_matrix_col0, cell_value_col0 by done. done.
  - assert (r = 0%nat) as -> by lia.
    rewrite blank_matrix_row0, cell_value_row0 by done. done.
Qed.

(** One execution of the inner loop body. *)
Lemma fill_cell_filled str1 str2 i j m :
  (i < length str2)%nat → (j < length str1)%nat →
  filled str1 str2 i j m →
  ∃ m', fill_cell str1 str2 i j m = Some m' ∧ filled str1 str2 i (S j) m'.
Proof.
  intros Hi Hj [Hshape Hcells].
  destruct (lookup_lt_is_Some_2 str2 i Hi) as [c2 Hc2].
  destruct (lookup_lt_is_Some_2 str1 j Hj) as [c1 Hc1].
  pose proof (cell_value_step str1 str2 i j c1 c2 Hc2 Hc1) as Hstep.
  assert (Htop : matrix_get m i j = Some (cell_value str1 str2 i j))
    by (apply Hcells; lia).
  assert (Hleft : matrix_get m i (j + 1) = Some (cell_value str1 str2 i (S j)))
    by (replace (j + 1)%nat with (S j) by lia; apply Hcells; lia).
  assert (Hbottom : matrix_get m (i + 1) j = Some (cell_value str1 str2 (S i) j))
    by (replace (i + 1)%nat with (S i) by lia; apply Hcells; lia).
  destruct (shaped_set _ _ m (S i) (S j) (cell_value str1 str2 (S i) (S j)) Hshape)
    as (m' & Hset & Hshape' & Hnew & Hold); [lia|lia|].
  exists m'. split.
  - unfold fill_cell. rewrite Hc2, Hc1. cbn [mbind option_bind].
    replace (i + 1)%nat with (S i) in * by lia.
    replace (j + 1)%nat with (S j) in * by lia.
    destruct (decide (c2 = c1)).
    + rewrite Htop. cbn [mbind option_bind]. by rewrite <-Hstep.
    + rewrite Htop, Hleft, Hbottom. cbn [mbind option_bind].
      rewrite py_min_three. cbn [mbind option_bind]. by rewrite <-Hstep.
  - split; [done|]. intros r c Hr Hc Hknown.
    destruct (decide ((r, c) = (S i, S j))) as [[= -> ->]|Hne]; [done|].
    rewrite Hold by done. apply Hcells; [done|done|].
    destruct Hknown as [?|[?|[-> ?]]]; [lia|lia|].
    right; right. split; [done|]. assert (c ≠ S j) by congruence. lia.
Qed.

Lemma fill_matrix_filled str1 str2 m :
  filled str1 str2 0 0 m →
  ∃ m', fill_matrix str1 str2 m = Some m' ∧ filled str1 str2 (length str2) 0 m'.
Proof.
  intros H0. unfold fill_matrix.
  apply (for_in_range_invariant (λ i m, filled str1 str2 i 0 m)); [done|].
  intros i m0 Hi Hrows.
  destruct (for_in_range_invariant (λ j m, filled str1 str2 i j m)
              (length str1) (λ index1 m, fill_cell str1 str2 i index1 m) m0)
    as (m1 & Hrun & [Hshape Hcells]); [done| |].
  - intros j m1 Hj Hinv. by apply fill_cell_filled.
  - exists m1. split; [done|]. split; [done|].
    intros r c Hr Hc Hknown. apply Hcells; [done|done|]. lia.
Qed.

(** The refinement: the imperative computation returns the value of the
    recurrence on the two lowercased strings. *)
Lemma lev_distance_spec str1 str2 :
  lev_distance str1 str2 = Some (edit_distance str1 str2).
Proof.
  unfold lev_distance. rewrite init_matrix_eq. cbn [mbind option_bind].
  destruct (fill_matrix_filled (lower str1) (lower str2) _
              (blank_matrix_filled _ _)) as (m & -> & [[Hlen Hrows] Hcells]).
  cbn [mbind option_bind].
  specialize (Hcells (length (lower str2)) (length (lower str1))).
  unfold matrix_get in Hcells.
  rewrite last_lookup, Hlen. simpl.
  destruct (m !! length (lower str2)) as [r|] eqn:Hr;
    [|by specialize (Hcells ltac:(lia) ltac:(lia) ltac:(lia))].
  cbn [mbind option_bind] in *.
  rewrite Forall_lookup in Hrows. specialize (Hrows _ _ Hr).
  rewrite last_lookup, Hrows. simpl.
  rewrite Hcells by lia. unfold cell_value, edit_distance.
  by rewrite !take_ge by lia.
Qed.

(** ** The hit map *)

Lemma dict_keys_set k v d :
  dict_keys (dict_set k v d) =
    if decide (k ∈ dict_keys d) then dict_keys d else dict_keys d ++ [k].
Proof.
  unfold dict_keys. induction d as [|[k' v'] d IH]; [done|]. cbn [dict_set].
  destruct (decide (k' = k)) as [->|Hne]; cbn [fmap list_fmap fst].
  -
    rewrite decide_True; [done|]. apply elem_of_cons. by left.
  - rewrite IH. destruct (decide (k ∈ d.*1)) as [Hin|Hnin].
    + rewrite decide_True; [done|]. apply elem_of_cons. by right.
    + rewrite decide_False; [done|].
      intros [?|?]%elem_of_cons; [congruence|done].
Qed.

Lemma dict_set_consistent q k d :
  consistent q d → consistent q (dict_set k (edit_distance q k) d).
Proof.
  unfold consistent. induction 1 as [|[k' v'] d Hkv Hd IH]; simpl.
  - by repeat constructor.
  - destruct (decide (k' = k)) as [->|Hne]; constructor; done.
Qed.

Lemma dict_get_consistent q k d :
  consistent q d → k ∈ dict_keys d → dict_get k d = Some (edit_distance q k).
Proof.
  unfold consistent, dict_keys. induction 1 as [|[k' v'] d Hkv Hd IH]; simpl.
  - by intros ?%elem_of_nil.
  - intros Hin. destruct (decide (k' = k)) as [->|Hne]; [by f_equal|].
    apply IH. apply elem_of_cons in Hin as [?|?]; [congruence|done].
Qed.

Lemma dict_values_consistent q d :
  consistent q d → dict_values d = edit_distance q <$> dict_keys d.
Proof.
  unfold consistent, dict_values, dict_keys.
  induction 1 as [|[k v] d Hkv Hd IH]; [done|].
  rewrite !fmap_cons. simpl in *. by f_equal.
Qed.

Lemma record_all_keys q db h :
  dict_keys (record_all q db h) = dict_keys h ++ unseen (dict_keys h) db.
Proof.
  revert h. induction db as [|w db IH]; intros h; simpl.
  - by rewrite app_nil_r.
  - unfold record_all in *. simpl. rewrite IH, dict_keys_set.
    destruct (decide (w ∈ dict_keys h)); [done|]. by rewrite <-app_assoc.
Qed.

Lemma record_all_consistent q db h :
  consistent q h → consistent q (record_all q db h).
Proof.
  revert h. induction db as [|w db IH]; intros h Hh; [done|].
  apply IH. by apply dict_set_consistent.
Qed.

(** ** First occurrences *)

Lemma unseen_sublist seen l : unseen seen l `sublist_of` l.
Proof.
  revert seen. induction l as [|x l IH]; intros seen; simpl; [done|].
  destruct (decide (x ∈ seen)); [apply sublist_cons|apply sublist_skip]; apply IH.
Qed.

Lemma elem_of_unseen seen l x : x ∈ unseen seen l ↔ x ∈ l ∧ x ∉ seen.
Proof.
  revert seen. induction l as [|y l IH]; intros seen; simpl.
  - rewrite elem_of_nil. tauto.
  - destruct (decide (y ∈ seen)) as [Hin|Hnin].
    + rewrite IH, elem_of_cons. split; [tauto|].
      intros [[->|?] ?]; [done|tauto].
    + rewrite !elem_of_cons, IH, elem_of_app, list_elem_of_singleton.
      destruct (decide (x = y)) as [->|Hne]; intuition congruence.
Qed.

Lemma unseen_NoDup seen l : NoDup (unseen seen l).
Proof.
  revert seen. induction l as [|y l IH]; intros seen; simpl; [constructor|].
  destruct (decide (y ∈ seen)); [apply IH|].
  apply NoDup_cons. split; [|apply IH].
  rewrite elem_of_unseen, elem_of_app, list_elem_of_singleton. tauto.
Qed.

Lemma elem_of_first_occurrences l x : x ∈ first_occurrences l ↔ x ∈ l.
Proof.
  unfold first_occurrences. rewrite elem_of_unseen, elem_of_nil. tauto.
Qed.

(** Without repeated elements nothing is dropped. *)
Lemma unseen_NoDup_id seen l :
  NoDup l → (∀ x, x ∈ l → x ∉ seen) → unseen seen l = l.
Proof.
  revert seen. induction l as [|y l IH]; intros seen Hnd Hfresh; simpl; [done|].
  apply NoDup_cons in Hnd as [Hy Hnd].
  rewrite decide_False by (apply Hfresh, elem_of_cons; by left).
  f_equal. apply IH; [done|]. intros x Hx.
  rewrite elem_of_app, list_elem_of_singleton. intros [Hs| ->]; [|done].
  apply (Hfresh x); [|done]. apply elem_of_cons. by right.
Qed.

(** ** [suggestions]: what the two loops compute *)

Lemma scan_loop q db direct hits :
  for_in db (scan_word q) (direct, hits) =
    Some (direct ++ filter (direct_hit q) db, record_all q db hits).
Proof.
  revert direct hits. induction db as [|w db IH]; intros direct hits; simpl.
  - by rewrite filter_nil, app_nil_r.
  - rewrite lev_distance_spec. cbn [mbind option_bind]. rewrite IH.
    rewrite filter_cons. unfold record_all. simpl.
    destruct (decide (direct_hit q w)) as [Hd|Hd]; unfold direct_hit in Hd.
    + apply Is_true_true in Hd. rewrite Hd. by rewrite <-app_assoc.
    + apply Is_true_false in Hd. by rewrite Hd.
Qed.

Lemma scan_eq db q :
  scan db q = Some (filter (direct_hit q) db, record_all q db []).
Proof. unfold scan. by rewrite scan_loop. Qed.

Lemma pick_best_eq q h least k best :
  consistent q h → py_min (dict_values h) = Some least → k ∈ dict_keys h →
  pick_best h k best =
    Some (if decide (edit_distance q k = least) then best ++ [k] else best).
Proof.
  intros Hh Hmin Hk. unfold pick_best.
  by rewrite (dict_get_consistent q), Hmin.
Qed.

Lemma pick_best_loop q h least ks best :
  consistent q h → py_min (dict_values h) = Some least →
  (∀ k, k ∈ ks → k ∈ dict_keys h) →
  for_in ks (pick_best h) best =
    Some (best ++ filter (λ w, edit_distance q w = least) ks).
Proof.
  intros Hh Hmin. revert best.
  induction ks as [|k ks IH]; intros best Hks; simpl.
  - by rewrite filter_nil, app_nil_r.
  - rewrite (pick_best_eq q h least)
      by (done || apply Hks, elem_of_cons; by left).
    cbn [mbind option_bind]. rewrite IH
      by (intros; apply Hks, elem_of_cons; by right).
    rewrite filter_cons.
    destruct (decide (edit_distance q k = least)); [|done].
    by rewrite <-app_assoc.
Qed.

Lemma suggestions_direct db q :
  filter (direct_hit q) db ≠ [] →
  suggestions db q = Some (filter (direct_hit q) db).
Proof.
  intros Hne. unfold suggestions. rewrite scan_eq. cbn [mbind option_bind].
  by destruct (filter (direct_hit q) db).
Qed.

Lemma suggestions_fallback db q :
  filter (direct_hit q) db = [] → db ≠ [] →
  ∃ least,
    (∃ w, w ∈ db ∧ edit_distance q w = least) ∧
    (∀ w, w ∈ db → least ≤ edit_distance q w) ∧
    suggestions db q =
      Some (filter (λ w, edit_distance q w = least) (first_occurrences db)).
Proof.
  intros Hnone Hdb. unfold suggestions.
  rewrite scan_eq, Hnone. cbn [mbind option_bind].
  pose proof (record_all_consistent q db [] (Forall_nil_2 _)) as Hcons.
  pose proof (record_all_keys q db []) as Hkeys.
  change (dict_keys [] ++ unseen (dict_keys []) db)
    with (first_occurrences db) in Hkeys.
  pose proof (dict_values_consistent q _ Hcons) as Hvals.
  rewrite Hkeys in Hvals.
  destruct (py_min_is_Some (dict_values (record_all q db []))) as [least Hmin].
  { rewrite Hvals. destruct db as [|w db]; [done|]. done. }
  destruct (py_min_spec _ _ Hmin) as [Hin Hle]. rewrite Hvals in Hin, Hle.
  exists least. split; [|split].
  - apply list_elem_of_fmap in Hin as (w & -> & Hw).
    exists w. by rewrite <-elem_of_first_occurrences.
  - intros w Hw. apply Hle, list_elem_of_fmap_2.
    by apply elem_of_first_occurrences.
  - rewrite Hkeys.
    rewrite (pick_best_loop q _ least) by (done || by rewrite Hkeys). done.
Qed.

(** ** The [in] test *)

Lemma starts_with_spec sub s : starts_with sub s ↔ ∃ post, s = sub ++ post.
Proof.
  revert s. induction sub as [|a sub IH]; intros s; simpl.
  - split; [by exists s|done].
  - destruct s as [|b s].
    + split; [done|]. by intros [post ?].
    + rewrite andb_True, bool_decide_spec, IH. split.
      * intros [-> [post ->]]. by exists post.
      * intros [post [= -> ->]]. split; [done|]. by exists post.
Qed.

Lemma py_in_substring sub s : py_in sub s ↔ substring sub s.
Proof.
  unfold substring. induction s as [|b s IH]; simpl.
  - rewrite orb_True, starts_with_spec. split.
    + intros [[post ->]|[]]. by exists [], post.
    + intros (pre & post & Heq). left.
      destruct pre; [by exists post|done].
  - rewrite orb_True, starts_with_spec, IH. split.
    + intros [[post ->]|(pre & post & ->)]; [by exists [], post|].
      by exists (b :: pre), post.
    + intros (pre & post & Heq). destruct pre as [|b' pre].
      * left. by exists post.
      * right. injection Heq as -> ->. by exists pre, post.
Qed.

Lemma py_in_empty s : py_in [] s = true.
Proof. by destruct s. Qed.

(** ** [lower] and lengths *)

Lemma length_lower_ucs4 before c after :
  length (lower_ucs4 before c after) = if decide (c = 304%N) then 2%nat else 1%nat.
Proof.
  unfold lower_ucs4, to_lower_full.
  destruct (decide (c = 304%N)) as [->|Hne]; [done|].
  apply N.eqb_neq in Hne. rewrite Hne. by destruct (c =? 931)%N.
Qed.

(** Lowercasing lengthens a string by one code point per U+0130 in it. *)
Lemma length_lower s :
  length (lower s) = (length s + length (filter (λ c, c = 304%N) s))%nat.
Proof.
  unfold lower. generalize (@nil N) as before.
  induction s as [|c s IH]; intros before; [done|].
  cbn [do_lower]. rewrite length_app, length_lower_ucs4, IH, filter_cons.
  destruct (decide (c = 304%N)); simpl; lia.
Qed.

Lemma edit_distance_sym a b : edit_distance a b = edit_distance b a.
Proof. unfold edit_distance. by rewrite lev_rec_sym. Qed.

Lemma direct_pass_eq db q :
  direct_pass db q = Some (filter (direct_hit q) db).
Proof. unfold direct_pass. by rewrite scan_eq. Qed.

(** * The distance *)

(** C6. For all strings [a] and [b], [lev_distance a b] and
    [lev_distance b a] return the same integer: the distance is
    symmetric. *)
Theorem lev_distance_symmetric (a b : str) :
  ∃ d, lev_distance a b = Some d ∧ lev_distance b a = Some d.
Proof.
  exists (edit_distance a b). split; [apply lev_distance_spec|].
  rewrite edit_distance_sym. apply lev_distance_spec.
Qed.

(** C7. The distance of a string to itself is 0, and the comparison does
    not see letter case: two strings with the same lowercase form are at
    distance 0, as are Pikachu and pikachu. *)
Theorem lev_distance_case_insensitive :
  (∀ a, lev_distance a a = Some 0) ∧
  (∀ a b, lower a = lower b → lev_distance a b = Some 0) ∧
  lower (py "Pikachu") = lower (py "pikachu") ∧
  lev_distance (py "Pikachu") (py "pikachu") = Some 0.
Proof.
  assert (H : ∀ a b, lower a = lower b → lev_distance a b = Some 0).
  { intros a b Hab. rewrite lev_distance_spec. unfold edit_distance.
    by rewrite Hab, lev_rec_refl. }
  split; [intros a; by apply H|]. split; [done|].
  split; [by vm_compute|]. apply H. by vm_compute.
Qed.

Lemma lev_distance_case_insensitive_witness :
  lower (py "EEVEE") = lower (py "Eevee") ∧
  lev_distance (py "EEVEE") (py "Eevee") = Some 0.
Proof.
  split; [by vm_compute|].
  apply (proj1 (proj2 lev_distance_case_insensitive)). by vm_compute.
Defined.

(** C8, as the code has it. With the empty string on either side the
    distance is the length of the other string once lowercased, which is
    its length plus the number of U+0130 characters in it (the one code
    point whose lowercase form is two code points long); no empty string
    raises. *)
Theorem lev_distance_empty (s : str) :
  lev_distance [] s = Some (Z.of_nat (length (lower s))) ∧
  lev_distance s [] = Some (Z.of_nat (length (lower s))) ∧
  length (lower s) = (length s + length (filter (λ c, c = 304%N) s))%nat.
Proof.
  split; [|split; [|apply length_lower]].
  - rewrite lev_distance_spec. unfold edit_distance.
    change (lower []) with (@nil N).
    by rewrite lev_rec_nil_r, length_reverse.
  - rewrite lev_distance_spec. unfold edit_distance.
    change (lower []) with (@nil N).
    by rewrite reverse_nil, lev_rec_nil_l, length_reverse.
Qed.

(** C8 as stated fails: the distance from the empty string to the
    one-character string U+0130 is 2. *)
Lemma lev_distance_empty_is_not_length :
  ¬ (∀ s : str, lev_distance [] s = Some (Z.of_nat (length s)) ∧
                lev_distance s [] = Some (Z.of_nat (length s))).
Proof.
  intros H. destruct (H [304%N]) as [H1 _].
  vm_compute in H1. discriminate H1.
Qed.

(** C9, as the code has it. The distance is never negative and is at
    least the difference of the lengths of the two lowercased strings;
    each of these lengths is the length of the string plus the number of
    U+0130 characters in it. *)
Theorem lev_distance_lower_bound (a b : str) :
  ∃ d, lev_distance a b = Some d ∧ 0 ≤ d ∧
       Z.abs (Z.of_nat (length (lower a)) - Z.of_nat (length (lower b))) ≤ d ∧
       length (lower a) = (length a + length (filter (λ c, c = 304%N) a))%nat ∧
       length (lower b) = (length b + length (filter (λ c, c = 304%N) b))%nat.
Proof.
  exists (edit_distance a b). split; [apply lev_distance_spec|].
  split; [unfold edit_distance; lia|].
  split; [|split; apply length_lower].
  unfold edit_distance.
  pose proof (lev_rec_lower_bound (reverse (lower b)) (reverse (lower a))) as H.
  rewrite !length_reverse in H. lia.
Qed.

(** C9 as stated fails: U+0130 and its two-character lowercase form are
    at distance 0 although their lengths differ by 1. *)
Lemma lev_distance_below_length_difference :
  ¬ (∀ a b : str, ∃ d, lev_distance a b = Some d ∧ 0 ≤ d ∧
       Z.abs (Z.of_nat (length a) - Z.of_nat (length b)) ≤ d).
Proof.
  intros H. destruct (H [304%N] [105%N; 775%N]) as (d & Hd & _ & Hle).
  vm_compute in Hd. injection Hd as <-. vm_compute in Hle. by apply Hle.
Qed.

(** C10. For all strings, empty ones included, the matrix is built and
    filled without an indexing error: it has one row per character of the
    lowercased second string plus one, every row one entry per character
    of the lowercased first string plus one, and [lev_distance] returns an
    integer. *)
Theorem lev_distance_never_raises (str1 str2 : str) :
  ∃ m0 m d,
    init_matrix (lower str1) (lower str2) = Some m0 ∧
    shaped (length (lower str1)) (length (lower str2)) m0 ∧
    fill_matrix (lower str1) (lower str2) m0 = Some m ∧
    shaped (length (lower str1)) (length (lower str2)) m ∧
    matrix_get m (length (lower str2)) (length (lower str1)) = Some d ∧
    lev_distance str1 str2 = Some d.
Proof.
  destruct (fill_matrix_filled (lower str1) (lower str2) _
              (blank_matrix_filled _ _)) as (m & Hfill & [Hshape Hcells]).
  exists (blank_matrix (length (lower str1)) (length (lower str2))), m,
         (edit_distance str1 str2).
  split; [apply init_matrix_eq|]. split; [apply blank_matrix_shaped|].
  split; [done|]. split; [done|]. split; [|apply lev_distance_spec].
  rewrite Hcells by lia. unfold cell_value, edit_distance.
  by rewrite !take_ge by lia.
Qed.

(** * The suggestions *)

(** C1, the behaviour of the code. The substring pass collects, in
    candidate order, the candidates whose lowercased form contains the
    query as it was typed: the query is not lowercased. With the
    candidates Pikachu and Mew the query CHU collects nothing, although
    the lowercased Pikachu contains the lowercased query, and the answer
    is Mew by distance; the query chu collects Pikachu. *)
Theorem direct_pass_keeps_query_case :
  (∀ database user_input, ∃ direct,
      direct_pass database user_input = Some direct ∧
      direct = filter (direct_hit user_input) database ∧
      ∀ word, word ∈ direct ↔
              word ∈ database ∧ substring user_input (lower word)) ∧
  let database := [py "Pikachu"; py "Mew"] in
  substring (lower (py "CHU")) (lower (py "Pikachu")) ∧
  direct_pass database (py "CHU") = Some [] ∧
  suggestions database (py "CHU") = Some [py "Mew"] ∧
  direct_pass database (py "chu") = Some [py "Pikachu"] ∧
  suggestions database (py "chu") = Some [py "Pikachu"].
Proof.
  split.
  - intros db q. exists (filter (direct_hit q) db).
    split; [apply direct_pass_eq|]. split; [done|]. intros w.
    rewrite list_elem_of_filter. unfold direct_hit.
    rewrite py_in_substring. tauto.
  - cbv zeta. split; [|by vm_compute].
    apply py_in_substring. by vm_compute.
Qed.

(** C2, as the code has it. When the candidate list is not empty and the
    substring pass collects nothing, [suggestions] returns the candidates
    at the least distance from the query, each string once, in the order
    of their first occurrence; for a list without repeated strings these
    are all the candidates at the least distance, in candidate order. *)
Theorem distance_pass_first_occurrences (database : list str) (user_input : str) :
  database ≠ [] →
  direct_pass database user_input = Some [] →
  ∃ least,
    (∃ word, word ∈ database ∧ lev_distance user_input word = Some least) ∧
    (∀ word, word ∈ database →
       ∃ d, lev_distance user_input word = Some d ∧ least ≤ d) ∧
    suggestions database user_input =
      Some (filter (λ word, lev_distance user_input word = Some least)
                   (first_occurrences database)) ∧
    (NoDup database →
     suggestions database user_input =
       Some (filter (λ word, lev_distance user_input word = Some least)
                    database)).
Proof.
  intros Hdb Hdirect. rewrite direct_pass_eq in Hdirect.
  injection Hdirect as Hnone.
  destruct (suggestions_fallback database user_input Hnone Hdb)
    as (least & (w & Hw & Hdw) & Hle & Hrun).
  assert (Hfilter : ∀ l : list str,
    filter (λ word, edit_distance user_input word = least) l =
    filter (λ word, lev_distance user_input word = Some least) l).
  { intros l. apply list_filter_iff. intros x. rewrite lev_distance_spec.
    split; [by intros ->|by intros [= ->]]. }
  exists least. split; [|split; [|split]].
  - exists w. split; [done|]. by rewrite lev_distance_spec, Hdw.
  - intros x Hx. exists (edit_distance user_input x).
    split; [apply lev_distance_spec|by apply Hle].
  - by rewrite Hrun, Hfilter.
  - intros Hnd. rewrite Hrun, Hfilter. unfold first_occurrences.
    rewrite unseen_NoDup_id; [done|done|]. by intros x _ ?%elem_of_nil.
Qed.

Lemma distance_pass_first_occurrences_witness :
  let database := [py "Bulbasaur"; py "Ivysaur"; py "Venusaur"] in
  database ≠ [] ∧
  direct_pass database (py "pikuchu") = Some [] ∧
  ∃ least,
    (∃ word, word ∈ database ∧ lev_distance (py "pikuchu") word = Some least) ∧
    (∀ word, word ∈ database →
       ∃ d, lev_distance (py "pikuchu") word = Some d ∧ least ≤ d) ∧
    suggestions database (py "pikuchu") =
      Some (filter (λ word, lev_distance (py "pikuchu") word = Some least)
                   (first_occurrences database)) ∧
    (NoDup database →
     suggestions database (py "pikuchu") =
       Some (filter (λ word, lev_distance (py "pikuchu") word = Some least)
                    database)).
Proof.
  cbv zeta. split; [done|]. split; [by vm_compute|].
  apply distance_pass_first_occurrences; [done|by vm_compute].
Defined.

(** C2 as stated fails: a candidate that occurs twice at the least
    distance is returned once. *)
Lemma distance_pass_collapses_duplicates :
  ¬ (∀ (database : list str) (user_input : str),
       database ≠ [] →
       direct_pass database user_input = Some [] →
       ∃ least,
         (∃ word, word ∈ database ∧
                  lev_distance user_input word = Some least) ∧
         (∀ word, word ∈ database →
            ∃ d, lev_distance user_input word = Some d ∧ least ≤ d) ∧
         suggestions database user_input =
           Some (filter (λ word, lev_distance user_input word = Some least)
                        database)).
Proof.
  intros H.
  destruct (H [py "abc"; py "abc"] (py "xyz")) as (least & (w & Hw & Hd) & _ & Hrun);
    [done|by vm_compute|].
  assert (w = py "abc") as ->.
  { apply elem_of_cons in Hw as [?|Hw]; [done|].
    apply elem_of_cons in Hw as [?|Hw]; [done|]. by apply elem_of_nil in Hw. }
  vm_compute in Hd. injection Hd as <-.
  vm_compute in Hrun. discriminate Hrun.
Qed.

(** C3. For every candidate list and every query, [suggestions] returns
    a list obtained from the candidate list by dropping elements: its
    strings occur among the candidates, in the candidates' order, whether
    they come from the substring pass or from the distance pass. *)
Theorem suggestions_sublist (database : list str) (user_input : str) :
  ∃ out, suggestions database user_input = Some out ∧
         out `sublist_of` database ∧
         ∀ word, word ∈ out → word ∈ database.
Proof.
  assert (G : ∃ out, suggestions database user_input = Some out ∧
                     out `sublist_of` database).
  { destruct (decide (filter (direct_hit user_input) database = [])) as [Hnone|Hsome].
    - destruct database as [|w db]; [by exists []|].
      destruct (suggestions_fallback (w :: db) user_input Hnone)
        as (least & _ & _ & Hrun); [done|].
      eexists. split; [done|].
      etrans; [apply sublist_filter|apply unseen_sublist].
    - eexists. split; [by apply suggestions_direct|apply sublist_filter]. }
  destruct G as (out & Hrun & Hsub). exists out.
  split; [done|]. split; [done|].
  intros w Hw. by apply (elem_of_sublist out).
Qed.

(** C4. What the substring pass collects, when it collects anything, is
    the result of [suggestions] as it stands; and the empty query
    collects every candidate, so that [suggestions] returns the candidate
    list itself. *)
Theorem direct_matches_win :
  (∀ database user_input, ∃ direct,
      direct_pass database user_input = Some direct ∧
      (direct ≠ [] → suggestions database user_input = Some direct)) ∧
  (∀ database,
      direct_pass database [] = Some database ∧
      suggestions database [] = Some database).
Proof.
  split.
  - intros db q. exists (filter (direct_hit q) db).
    split; [apply direct_pass_eq|apply suggestions_direct].
  - intros db.
    assert (Hall : filter (direct_hit []) db = db).
    { induction db as [|w db IH]; [done|].
      rewrite filter_cons_True, IH; [done|].
      unfold direct_hit. by rewrite py_in_empty. }
    split; [by rewrite direct_pass_eq, Hall|].
    destruct db as [|w db]; [done|].
    rewrite suggestions_direct; rewrite Hall; done.
Qed.

Lemma direct_matches_win_witness :
  let database := [py "Pikachu"; py "Raichu"] in
  direct_pass database (py "chu") = Some database ∧
  database ≠ [] ∧
  suggestions database (py "chu") = Some database.
Proof.
  cbv zeta. split; [by vm_compute|]. split; [done|].
  destruct (proj1 direct_matches_win [py "Pikachu"; py "Raichu"] (py "chu"))
    as (direct & Hdirect & Hwin).
  vm_compute in Hdirect. injection Hdirect as <-.
  by apply Hwin.
Defined.

(** C5. On the empty candidate list [suggestions] returns the empty
    list, and on every candidate list and every query, empty ones
    included, it returns a list: no exception is raised. *)
Theorem suggestions_total :
  (∀ user_input, suggestions [] user_input = Some []) ∧
  (∀ database user_input, is_Some (suggestions database user_input)).
Proof.
  split; [done|]. intros db q.
  destruct (decide (filter (direct_hit q) db = [])) as [Hnone|Hsome].
  - destruct db as [|w db]; [by eexists|].
    destruct (suggestions_fallback (w :: db) q Hnone)
      as (least & _ & _ & ->); [done|]. by eexists.
  - rewrite suggestions_direct by done. by eexists.
Qed.

(** * Further properties of the distance *)

(** ** The recurrence moves by at most one per character *)

Lemma lev_rec_lipschitz n u v x :
  (length u + length v ≤ n)%nat →
  (lev_rec (x :: u) v ≤ S (lev_rec u v) ∧
   lev_rec u v ≤ S (lev_rec (x :: u) v))%nat.
Proof.
  revert u v x. induction n as [|n IH]; intros u v x Hn.
  - destruct u, v; simpl in *; lia.
  - destruct v as [|y v].
    + rewrite !lev_rec_nil_r. simpl. lia.
    + assert (Hvu : (length v + length u ≤ n)%nat) by (simpl in Hn; lia).
      assert (Huv : (length u + length v ≤ n)%nat) by lia.
      destruct (IH v u y Hvu) as [A' B'].
      rewrite (lev_rec_sym (y :: v) u), (lev_rec_sym v u) in A', B'.
      destruct (IH u v x Huv) as [A B].
      rewrite lev_rec_cons. destruct (decide (x = y)); lia.
Qed.

Lemma lev_rec_drop_l x u v : (lev_rec (x :: u) v ≤ S (lev_rec u v))%nat.
Proof. by apply (lev_rec_lipschitz (length u + length v)). Qed.

Lemma lev_rec_add_l x u v : (lev_rec u v ≤ S (lev_rec (x :: u) v))%nat.
Proof. by apply (lev_rec_lipschitz (length u + length v)). Qed.

Lemma lev_rec_drop_r y u v : (lev_rec u (y :: v) ≤ S (lev_rec u v))%nat.
Proof. rewrite (lev_rec_sym u (y :: v)), (lev_rec_sym u v). apply lev_rec_drop_l. Qed.

Lemma lev_rec_add_r y u v : (lev_rec u v ≤ S (lev_rec u (y :: v)))%nat.
Proof. rewrite (lev_rec_sym u (y :: v)), (lev_rec_sym u v). apply lev_rec_add_l. Qed.

Lemma lev_rec_same_head x u v : lev_rec (x :: u) (x :: v) = lev_rec u v.
Proof. rewrite lev_rec_cons. by rewrite decide_True. Qed.

Lemma lev_rec_substitute x y u v :
  (lev_rec (x :: u) (y :: v) ≤ S (lev_rec u v))%nat.
Proof. rewrite lev_rec_cons. destruct (decide (x = y)); lia. Qed.

(** The value at two non-empty strings comes from one of its three
    neighbours. *)
Lemma lev_rec_cases x u y v :
  (x = y ∧ lev_rec (x :: u) (y :: v) = lev_rec u v) ∨
  lev_rec (x :: u) (y :: v) = S (lev_rec u v) ∨
  lev_rec (x :: u) (y :: v) = S (lev_rec u (y :: v)) ∨
  lev_rec (x :: u) (y :: v) = S (lev_rec (x :: u) v).
Proof. rewrite lev_rec_cons. destruct (decide (x = y)); [by left|]. lia. Qed.

Lemma lev_rec_upper_bound u v : (lev_rec u v ≤ length u `max` length v)%nat.
Proof.
  revert v. induction u as [|x u IHu]; intros v; [simpl; lia|].
  destruct v as [|y v]; [rewrite lev_rec_nil_r; lia|].
  pose proof (lev_rec_substitute x y u v). pose proof (IHu v).
  cbn [length]. lia.
Qed.

Lemma lev_rec_zero u v : lev_rec u v = 0%nat → u = v.
Proof.
  revert v. induction u as [|x u IHu]; intros v.
  - rewrite lev_rec_nil_l. by destruct v.
  - destruct v as [|y v]; [done|]. rewrite lev_rec_cons.
    destruct (decide (x = y)) as [->|]; [|done].
    intros H. f_equal. by apply IHu.
Qed.

Lemma lev_rec_triangle_size n a b c :
  (length a + length b + length c ≤ n)%nat →
  (lev_rec a c ≤ lev_rec a b + lev_rec b c)%nat.
Proof.
  revert a b c. induction n as [|n IH]; intros a b c Hn.
  - destruct a, b, c; simpl in *; lia.
  - destruct a as [|x a].
    { rewrite !lev_rec_nil_l. pose proof (lev_rec_lower_bound b c). lia. }
    destruct c as [|z c].
    { rewrite !lev_rec_nil_r. pose proof (lev_rec_lower_bound (x :: a) b). lia. }
    destruct b as [|y b].
    { rewrite lev_rec_nil_l, lev_rec_nil_r.
      pose proof (lev_rec_upper_bound (x :: a) (z :: c)). lia. }
    cbn [length] in Hn.
    assert (IH1 := IH a (y :: b) (z :: c)).
    assert (IH2 := IH (x :: a) (y :: b) c).
    assert (IH3 := IH (x :: a) b (z :: c)).
    assert (IH4 := IH (x :: a) b c).
    assert (IH5 := IH a b (z :: c)).
    assert (IH6 := IH a b c).
    cbn [length] in IH1, IH2, IH3, IH4, IH5, IH6.
    pose proof (lev_rec_drop_l x a (z :: c)).
    pose proof (lev_rec_drop_r z (x :: a) c).
    pose proof (lev_rec_substitute x z a c).
    pose proof (lev_rec_same_head x a c).
    destruct (lev_rec_cases x a y b) as [[-> Hab]|[Hab|[Hab|Hab]]];
      destruct (lev_rec_cases y b z c) as [[<- Hbc]|[Hbc|[Hbc|Hbc]]];
      rewrite Hab, Hbc; lia.
Qed.

Lemma lev_rec_triangle a b c :
  (lev_rec a c ≤ lev_rec a b + lev_rec b c)%nat.
Proof. by apply (lev_rec_triangle_size (length a + length b + length c)). Qed.

(** ** Edit scripts *)

Lemma edit_sym s t : edit s t → edit t s.
Proof. intros []; constructor. Qed.

Lemma edit_cons x s t : edit s t → edit (x :: s) (x :: t).
Proof.
  intros [pre c post|pre c post|pre c c' post].
  - apply (edit_insert (x :: pre)).
  - apply (edit_delete (x :: pre)).
  - apply (edit_substitute (x :: pre)).
Qed.

Lemma edit_reverse s t : edit s t → edit (reverse s) (reverse t).
Proof.
  intros [pre c post|pre c post|pre c c' post];
    rewrite ?reverse_app, ?reverse_cons, <-?app_assoc; simpl; constructor.
Qed.

Lemma edits_snoc n s s' t : edits n s s' → edit s' t → edits (S n) s t.
Proof.
  induction 1 as [s|n s s1 s' Hstep Hrest IH]; intros Hlast.
  - eapply edits_step; [done|constructor].
  - eapply edits_step; [done|]. by apply IH.
Qed.

Lemma edits_sym n s t : edits n s t → edits n t s.
Proof.
  induction 1 as [s|n s s' t Hstep Hrest IH]; [constructor|].
  eapply edits_snoc; [done|]. by apply edit_sym.
Qed.

Lemma edits_cons x n s t : edits n s t → edits n (x :: s) (x :: t).
Proof.
  induction 1 as [s|n s s' t Hstep Hrest IH]; [constructor|].
  eapply edits_step; [|done]. by apply edit_cons.
Qed.

Lemma edits_reverse n s t : edits n s t → edits n (reverse s) (reverse t).
Proof.
  induction 1 as [s|n s s' t Hstep Hrest IH]; [constructor|].
  eapply edits_step; [|done]. by apply edit_reverse.
Qed.

Lemma edits_from_nil v : edits (length v) [] v.
Proof.
  induction v as [|y v IH]; [constructor|]. simpl.
  eapply edits_step; [apply (edit_insert [] y [])|]. by apply edits_cons.
Qed.

Lemma lev_rec_common_prefix pre u v :
  lev_rec (pre ++ u) (pre ++ v) = lev_rec u v.
Proof.
  induction pre as [|x pre IH]; [done|].
  rewrite <-!app_comm_cons. by rewrite lev_rec_same_head.
Qed.

Lemma edit_lev_rec s t : edit s t → (lev_rec s t ≤ 1)%nat.
Proof.
  intros [pre c post|pre c post|pre c c' post];
    rewrite lev_rec_common_prefix.
  - pose proof (lev_rec_drop_r c post post). rewrite lev_rec_refl in *. lia.
  - pose proof (lev_rec_drop_l c post post). rewrite lev_rec_refl in *. lia.
  - pose proof (lev_rec_substitute c c' post post).
    rewrite lev_rec_refl in *. lia.
Qed.

(** No script is shorter than the value of the recurrence. *)
Lemma edits_lev_rec n s t : edits n s t → (lev_rec s t ≤ n)%nat.
Proof.
  induction 1 as [s|n s s' t Hstep Hrest IH].
  - by rewrite lev_rec_refl.
  - pose proof (edit_lev_rec _ _ Hstep).
    pose proof (lev_rec_triangle s s' t). lia.
Qed.

(** And a script of that length exists. *)
Lemma lev_rec_edits u v : edits (lev_rec u v) u v.
Proof.
  revert v. induction u as [|x u IHu]; intros v.
  - rewrite lev_rec_nil_l. apply edits_from_nil.
  - induction v as [|y v IHv].
    + rewrite lev_rec_nil_r. apply edits_sym, edits_from_nil.
    + rewrite lev_rec_cons. destruct (decide (x = y)) as [->|Hne].
      * apply edits_cons, IHu.
      * destruct (Nat.min_spec (lev_rec u v)
                   (lev_rec u (y :: v) `min` lev_rec (x :: u) v))
          as [[_ ->]|[_ ->]].
        { eapply edits_step; [apply (edit_substitute [] x y u)|].
          apply edits_cons, IHu. }
        destruct (Nat.min_spec (lev_rec u (y :: v)) (lev_rec (x :: u) v))
          as [[_ ->]|[_ ->]].
        { eapply edits_step; [apply (edit_delete [] x u)|]. apply IHu. }
        eapply edits_snoc; [apply IHv|]. apply (edit_insert [] y v).
Qed.

(** ** [lev_distance] as a metric on lowercased strings *)

(** X1. The distance is 0 exactly when the two strings have the same
    lowercase form. *)
Theorem lev_distance_zero_iff (str1 str2 : str) :
  lev_distance str1 str2 = Some 0 ↔ lower str1 = lower str2.
Proof.
  rewrite lev_distance_spec. unfold edit_distance. split.
  - intros [= H]. assert (H0 : lev_rec (reverse (lower str2))
                                 (reverse (lower str1)) = 0%nat) by lia.
    apply lev_rec_zero in H0. by apply (inj reverse).
  - intros ->. by rewrite lev_rec_refl.
Qed.

(** X2. The distance never exceeds the length of the longer of the two
    lowercased strings. *)
Theorem lev_distance_upper_bound (str1 str2 : str) :
  ∃ d, lev_distance str1 str2 = Some d ∧
       d ≤ Z.of_nat (length (lower str1)) `max` Z.of_nat (length (lower str2)).
Proof.
  exists (edit_distance str1 str2). split; [apply lev_distance_spec|].
  unfold edit_distance.
  pose proof (lev_rec_upper_bound (reverse (lower str2)) (reverse (lower str1))) as H.
  rewrite !length_reverse in H. lia.
Qed.

(** X3. Triangle inequality: going through a third string is never shorter. *)
Theorem lev_distance_triangle (a b c : str) :
  ∃ dab dbc dac,
    lev_distance a b = Some dab ∧ lev_distance b c = Some dbc ∧
    lev_distance a c = Some dac ∧ dac ≤ dab + dbc.
Proof.
  exists (edit_distance a b), (edit_distance b c), (edit_distance a c).
  rewrite !lev_distance_spec. repeat split. unfold edit_distance.
  pose proof (lev_rec_triangle (reverse (lower c)) (reverse (lower b))
                (reverse (lower a))). lia.
Qed.

(** X4. The docstring of [lev_distance]: the value returned is the number of
    single-character deletions, insertions and substitutions required to
    turn the lowercased [str1] into the lowercased [str2]: a script of
    that many edits exists and none is shorter. *)
Theorem lev_distance_least_edits (str1 str2 : str) :
  ∃ d : nat,
    lev_distance str1 str2 = Some (Z.of_nat d) ∧
    edits d (lower str1) (lower str2) ∧
    ∀ n, edits n (lower str1) (lower str2) → (d ≤ n)%nat.
Proof.
  exists (lev_rec (reverse (lower str2)) (reverse (lower str1))).
  split; [apply lev_distance_spec|]. split.
  - apply edits_sym.
    pose proof (edits_reverse _ _ _
      (lev_rec_edits (reverse (lower str2)) (reverse (lower str1)))) as H.
    by rewrite !reverse_involutive in H.
  - intros n Hn. by apply edits_lev_rec, edits_reverse, edits_sym.
Qed.

(** * The dataset *)

Lemma setitem_fresh {K V} `{EqDecision K} (k : K) (v : V) (d : list (K * V)) :
  k ∉ d.*1 → setitem k v d = d ++ [(k, v)].
Proof.
  induction d as [|[k' v'] d IH]; intros Hk; [done|]. simpl in *.
  apply not_elem_of_cons in Hk as [Hne Hk].
  rewrite decide_False by done. by rewrite IH.
Qed.

(** The loop of [fetch] on the rows after the first. *)
Lemma fetch_loop body k self stats :
  (1 ≤ k)%nat → (∀ j, j ∈ stats.*1 → (j < k)%nat) →
  for_in (zip (seq k (length body)) body) Pokemon.fetch_row (self, stats) =
    (λ ns, (Pokemon.mk (Pokemon.headers self) (Pokemon.names self ++ ns)
                       (Pokemon.stats self),
            stats ++ zip (seq k (length body)) body))
    <$> mapM (λ row, row !! 1%nat) body.
Proof.
  revert k self stats. induction body as [|row body IH]; intros k self stats Hk Hkeys.
  - simpl. rewrite !app_nil_r. by destruct self.
  - cbn [length seq zip zip_with for_in Pokemon.fetch_row].
    rewrite decide_False by lia.
    rewrite setitem_fresh by (intros ?%Hkeys; lia).
    cbn [mapM]. destruct (row !! 1%nat) as [name|]; [|done].
    cbn [mbind option_bind]. rewrite IH; [|lia|].
    + cbn [Pokemon.headers Pokemon.names Pokemon.stats].
      destruct (mapM (λ row0, row0 !! 1%nat) body) as [ns|]; [|done]. simpl.
      by rewrite <-!app_assoc.
    + intros j. rewrite fmap_app, elem_of_app. simpl.
      rewrite list_elem_of_singleton. intros [?%Hkeys| ->]; lia.
Qed.

Lemma init_cons header body :
  Pokemon.init (header :: body) =
    (λ ns, Pokemon.mk (Some header) ns (zip (seq 1 (length body)) body))
    <$> mapM (λ row, row !! 1%nat) body.
Proof.
  unfold Pokemon.init, Pokemon.fetch.
  cbn [length seq zip zip_with for_in Pokemon.fetch_row].
  rewrite decide_True by done. cbn [mbind option_bind].
  rewrite fetch_loop; [|lia|by intros j ?%elem_of_nil].
  by destruct (mapM (λ row, row !! 1%nat) body).
Qed.

Lemma values_zip_seq {A} k (l : list A) : values (zip (seq k (length l)) l) = l.
Proof.
  unfold values. revert k. induction l as [|x l IH]; intros k; [done|].
  simpl. by rewrite IH.
Qed.

Lemma keys_zip_seq {A} k (l : list A) :
  (zip (seq k (length l)) l).*1 = seq k (length l).
Proof.
  revert k. induction l as [|x l IH]; intros k; [done|].
  simpl. by rewrite IH.
Qed.

(** What a successful load leaves. *)
Lemma init_inv header body p :
  Pokemon.init (header :: body) = Some p →
  Pokemon.headers p = Some header ∧
  values (Pokemon.stats p) = body ∧
  Forall2 (λ row name, row !! 1%nat = Some name) body (Pokemon.names p).
Proof.
  rewrite init_cons. destruct (mapM _ body) as [ns|] eqn:Hns; [|done].
  intros [= <-]. simpl. split; [done|]. split; [apply values_zip_seq|].
  by apply mapM_Some_1.
Qed.

(** ** [get] *)

Lemma get_loop_missing self find rows :
  Forall (other_name find) rows → Pokemon.get_loop self find rows = Some None.
Proof.
  induction 1 as [|row rows (f & Hf & Hne) _ IH]; [done|].
  simpl. rewrite Hf. simpl. by rewrite decide_False.
Qed.

Lemma get_loop_found self hs find pre row post :
  Pokemon.headers self = Some hs →
  Forall (other_name find) pre → has_name find row →
  Pokemon.get_loop self find (pre ++ row :: post) =
    Some (Some (Pokemon.fill_info hs row)).
Proof.
  intros Hhs Hpre (f & Hf & Heq).
  induction Hpre as [|r pre (g & Hg & Hne) _ IH]; simpl.
  - rewrite Hf. simpl. rewrite decide_True by done. by rewrite Hhs.
  - rewrite Hg. simpl. by rewrite decide_False.
Qed.

(** Rows that all have a name either hold none for [find], or a first
    one. *)
Lemma first_has_name find rows :
  Forall (λ row, is_Some (row !! 1%nat)) rows →
  Forall (other_name find) rows ∨
  ∃ pre row post, rows = pre ++ row :: post ∧
                  Forall (other_name find) pre ∧ has_name find row.
Proof.
  induction 1 as [|row rows [f Hf] _ IH]; [by left|].
  destruct (decide (lower f = lower find)) as [Heq|Hne].
  - right. exists [], row, rows. split; [done|]. split; [done|]. by exists f.
  - assert (other_name find row) by (by exists f).
    destruct IH as [Hall|(pre & r & post & -> & Hpre & Hr)].
    + left. by constructor.
    + right. exists (row :: pre), r, post. split; [done|]. split; [|done].
      by constructor.
Qed.

Lemma other_not_has_name find row : other_name find row → ¬ has_name find row.
Proof. intros (f & Hf & Hne) (g & Hg & Heq). congruence. Qed.

(** ** The record of a row *)

Lemma fill_info_loop (hs each : list str) (info : list (str * str)) :
  NoDup (info.*1 ++ hs) →
  foldl (λ info kv, setitem kv.1 kv.2 info) info (zip hs each) =
    info ++ zip hs each.
Proof.
  revert each info. induction hs as [|h hs IH]; intros each info Hnd.
  - simpl. by rewrite app_nil_r.
  - destruct each as [|v each]; [simpl; by rewrite app_nil_r|].
    cbn [zip zip_with foldl fst snd].
    apply NoDup_app in Hnd as (Hinfo & Hdisj & Hhs).
    apply NoDup_cons in Hhs as [Hh Hhs].
    rewrite setitem_fresh.
    2:{ intros Hin. apply (Hdisj h Hin). apply elem_of_cons. by left. }
    rewrite IH, <-app_assoc; [done|].
    rewrite fmap_app. simpl. rewrite <-app_assoc. simpl.
    apply NoDup_app. split; [done|]. split; [|by apply NoDup_cons].
    intros x Hx. by apply Hdisj.
Qed.

Lemma setitem_not_nil {K V} `{EqDecision K} (k : K) (v : V) d : setitem k v d ≠ [].
Proof. destruct d as [|[k' v'] d]; simpl; [done|]. by destruct (decide (k' = k)). Qed.

Lemma foldl_setitem_not_nil (l d : list (str * str)) :
  d ≠ [] → foldl (λ info kv, setitem kv.1 kv.2 info) d l ≠ [].
Proof.
  revert d. induction l as [|kv l IH]; intros d Hd; [done|].
  simpl. apply IH, setitem_not_nil.
Qed.

Lemma fill_info_not_nil h hs v each : Pokemon.fill_info (h :: hs) (v :: each) ≠ [].
Proof.
  unfold Pokemon.fill_info. cbn [zip zip_with foldl].
  apply foldl_setitem_not_nil, setitem_not_nil.
Qed.

Lemma loaded_rows_named header body p :
  Pokemon.init (header :: body) = Some p →
  Forall (λ row, is_Some (row !! 1%nat)) body.
Proof.
  intros (_ & _ & Hnames)%init_inv.
  induction Hnames as [|row name body names Hrow _ IH]; constructor; eauto.
Qed.

Lemma loaded_name_row header body p name :
  Pokemon.init (header :: body) = Some p →
  name ∈ Pokemon.names p ↔ ∃ row, row ∈ body ∧ row !! 1%nat = Some name.
Proof.
  intros (_ & _ & Hnames)%init_inv.
  induction Hnames as [|row n body names Hrow _ IH].
  - split; [by intros ?%elem_of_nil|]. by intros (row & ?%elem_of_nil & _).
  - rewrite elem_of_cons, IH. split.
    + intros [->|(r & Hr & Hf)].
      * exists row. split; [by apply elem_of_cons; left|done].
      * exists r. split; [by apply elem_of_cons; right|done].
    + intros (r & [->|Hr]%elem_of_cons & Hf); [left; congruence|].
      right. by exists r.
Qed.

Lemma randname_loop_spec randnum name (rows : list (list str)) k :
  Pokemon.randname_loop randnum name (zip (seq k (length rows)) rows) =
    if decide (k ≤ randnum < k + length rows)%nat
    then rows !! (randnum - k)%nat ≫= λ each, each !! 1%nat
    else Some name.
Proof.
  revert k. induction rows as [|row rows IH]; intros k.
  - simpl. rewrite decide_False by lia. done.
  - cbn [length seq zip zip_with Pokemon.randname_loop].
    destruct (decide (k = randnum)) as [->|Hne].
    + rewrite decide_True by lia. by rewrite Nat.sub_diag.
    + rewrite IH. destruct (decide (S k ≤ randnum < S k + length rows)%nat).
      * rewrite decide_True by lia.
        by replace (randnum - k)%nat with (S (randnum - S k)) by lia.
      * rewrite decide_False by lia. done.
Qed.

Lemma randname_at header body p randnum :
  Pokemon.init (header :: body) = Some p →
  Pokemon.randname p randnum = Some (default [] (Pokemon.names p !! randnum)).
Proof.
  intros Hp. destruct (init_inv _ _ _ Hp) as (_ & Hv & Hnames).
  unfold Pokemon.randname. rewrite Hv, randname_loop_spec.
  rewrite Nat.sub_0_r.
  destruct (decide (0 ≤ randnum < 0 + length body)%nat) as [Hlt|Hge].
  - destruct (lookup_lt_is_Some_2 body randnum) as [row Hrow]; [lia|].
    destruct (Forall2_lookup_l _ _ _ _ _ Hnames Hrow) as (name & Hname & Hf).
    by rewrite Hrow, Hname.
  - rewrite lookup_ge_None_2; [done|].
    rewrite <-(Forall2_length _ _ _ Hnames). lia.
Qed.

(** X5. Loading the dataset: [Pokemon()] on the rows of the CSV text raises
    an error exactly when a row after the first has fewer than two
    fields; otherwise [headers] is the first row, [stats] maps the row
    numbers 1, 2, ... to the rows after the first, in order, and
    [names] lists their second fields, in order. *)
Theorem load_dataset (header : list str) (body : list (list str)) :
  (is_Some (Pokemon.init (header :: body)) ↔
   Forall (λ row, 2 ≤ length row)%nat body) ∧
  ∀ p, Pokemon.init (header :: body) = Some p →
       Pokemon.headers p = Some header ∧
       (Pokemon.stats p).*1 = seq 1 (length body) ∧
       values (Pokemon.stats p) = body ∧
       Forall2 (λ row name, row !! 1%nat = Some name) body (Pokemon.names p).
Proof.
  split.
  - rewrite init_cons, fmap_is_Some, mapM_is_Some.
    apply Forall_proper; [|done]. intros row. simpl.
    rewrite lookup_lt_is_Some. lia.
  - intros p Hp. destruct (init_inv _ _ _ Hp) as (Hh & Hv & Hn).
    split; [done|]. split; [|done].
    rewrite init_cons in Hp. destruct (mapM _ body) as [ns|]; [|done].
    injection Hp as <-. apply keys_zip_seq.
Qed.

Lemma get_none_iff_names header body p find :
  Pokemon.init (header :: body) = Some p →
  Pokemon.get p find = Some None →
  ∀ name, name ∈ Pokemon.names p → lower name ≠ lower find.
Proof.
  intros Hp. destruct (init_inv _ _ _ Hp) as (Hh & Hv & _).
  unfold Pokemon.get. rewrite Hv.
  destruct (first_has_name find body (loaded_rows_named _ _ _ Hp))
    as [Hall|(pre & row & post & -> & Hpre & Hrow)].
  - intros _ name Hname.
    apply (loaded_name_row _ _ _ name Hp) in Hname as (row & Hrow & Hf).
    rewrite Forall_forall in Hall. destruct (Hall row Hrow) as (f & Hf' & Hne).
    congruence.
  - by rewrite (get_loop_found _ header).
Qed.

(** X6. [get] on a loaded dataset returns [None] exactly when no listed name
    is [find] up to letter case. *)
Theorem get_none_iff (header : list str) (body : list (list str))
    (p : Pokemon.t) (find : str) :
  Pokemon.init (header :: body) = Some p →
  Pokemon.get p find = Some None ↔
  ∀ name, name ∈ Pokemon.names p → lower name ≠ lower find.
Proof.
  intros Hp. destruct (init_inv _ _ _ Hp) as (Hh & Hv & _).
  unfold Pokemon.get. rewrite Hv.
  destruct (first_has_name find body (loaded_rows_named _ _ _ Hp))
    as [Hall|(pre & row & post & -> & Hpre & Hrow)].
  - rewrite get_loop_missing by done. split; [|done]. intros _ name Hname.
    apply (loaded_name_row _ _ _ name Hp) in Hname as (row & Hrow & Hf).
    rewrite Forall_forall in Hall. destruct (Hall row Hrow) as (f & Hf' & Hne).
    congruence.
  - rewrite (get_loop_found _ header) by done. split; [done|]. intros Hall.
    destruct Hrow as (f & Hf & Heq). destruct (Hall f); [|done].
    apply (loaded_name_row _ _ _ f Hp). exists row. split; [|done].
    apply elem_of_app. right. apply elem_of_cons. by left.
Qed.

Lemma get_none_iff_witness :
  let rows := [[py "#"; py "Name"]; [py "1"; py "Bulbasaur"]; [py "4"; py "Charmander"]] in
  let p := Pokemon.mk (Some [py "#"; py "Name"])
             [py "Bulbasaur"; py "Charmander"]
             [(1%nat, [py "1"; py "Bulbasaur"]); (2%nat, [py "4"; py "Charmander"])] in
  Pokemon.init rows = Some p ∧
  (Pokemon.get p (py "Pikachu") = Some None ↔
   ∀ name, name ∈ Pokemon.names p → lower name ≠ lower (py "Pikachu")).
Proof.
  cbv zeta. split; [by vm_compute|].
  by apply (get_none_iff [py "#"; py "Name"]
              [[py "1"; py "Bulbasaur"]; [py "4"; py "Charmander"]]).
Defined.

(** X7. [get] finds every name up to letter case: when some row of a loaded
    dataset has the name [find] up to case, [get] returns the record of
    the first such row, its fields under the headers. *)
Theorem get_first_match (header : list str) (body : list (list str))
    (p : Pokemon.t) (find name : str) :
  Pokemon.init (header :: body) = Some p →
  name ∈ Pokemon.names p → lower name = lower find →
  ∃ pre row post,
    body = pre ++ row :: post ∧
    Forall (other_name find) pre ∧ has_name find row ∧
    Pokemon.get p find = Some (Some (Pokemon.fill_info header row)).
Proof.
  intros Hp Hname Heq. destruct (init_inv _ _ _ Hp) as (Hh & Hv & _).
  unfold Pokemon.get. rewrite Hv.
  destruct (first_has_name find body (loaded_rows_named _ _ _ Hp))
    as [Hall|(pre & row & post & -> & Hpre & Hrow)].
  - apply (loaded_name_row _ _ _ name Hp) in Hname as (row & Hrow & Hf).
    rewrite Forall_forall in Hall. destruct (Hall row Hrow) as (f & Hf' & Hne).
    congruence.
  - exists pre, row, post. by rewrite (get_loop_found _ header).
Qed.

Lemma get_first_match_witness :
  let body := [[py "1"; py "Bulbasaur"]; [py "4"; py "Charmander"]] in
  let p := Pokemon.mk (Some [py "#"; py "Name"])
             [py "Bulbasaur"; py "Charmander"]
             [(1%nat, [py "1"; py "Bulbasaur"]); (2%nat, [py "4"; py "Charmander"])] in
  Pokemon.init ([py "#"; py "Name"] :: body) = Some p ∧
  py "Charmander" ∈ Pokemon.names p ∧
  lower (py "Charmander") = lower (py "CHARMANDER") ∧
  ∃ pre row post,
    body = pre ++ row :: post ∧
    Forall (other_name (py "CHARMANDER")) pre ∧
    has_name (py "CHARMANDER") row ∧
    Pokemon.get p (py "CHARMANDER") =
      Some (Some (Pokemon.fill_info [py "#"; py "Name"] row)).
Proof.
  cbv zeta. split; [by vm_compute|].
  assert (Hin : py "Charmander" ∈ [py "Bulbasaur"; py "Charmander"]).
  { apply elem_of_cons. right. apply elem_of_cons. by left. }
  split; [exact Hin|]. split; [by vm_compute|].
  apply (get_first_match [py "#"; py "Name"] _ _ _ (py "Charmander"));
    [by vm_compute|exact Hin|by vm_compute].
Defined.

(** X8. With headers that are pairwise distinct, the record of a row pairs
    each header with the field in its column, in column order, up to the
    shorter of the two. *)
Theorem fill_info_distinct_headers (headers each : list str) :
  NoDup headers → Pokemon.fill_info headers each = zip headers each.
Proof. intros Hnd. unfold Pokemon.fill_info. by rewrite fill_info_loop. Qed.

Lemma fill_info_distinct_headers_witness :
  NoDup [py "#"; py "Name"; py "Type"] ∧
  Pokemon.fill_info [py "#"; py "Name"; py "Type"] [py "25"; py "Pikachu"] =
    zip [py "#"; py "Name"; py "Type"] [py "25"; py "Pikachu"].
Proof.
  assert (Hnd : NoDup [py "#"; py "Name"; py "Type"]).
  { apply (bool_decide_unpack _). by vm_compute. }
  split; [exact Hnd|]. by apply fill_info_distinct_headers.
Defined.

(** X9. [randname] on a loaded dataset returns the name at position
    [randnum] of [names], and the empty string when the number drawn is
    not below the number of records. *)
Theorem randname_nth (header : list str) (body : list (list str))
    (p : Pokemon.t) (randnum : nat) :
  Pokemon.init (header :: body) = Some p →
  ((randnum < length body)%nat →
   ∃ name, Pokemon.names p !! randnum = Some name ∧
           Pokemon.randname p randnum = Some name) ∧
  ((length body ≤ randnum)%nat → Pokemon.randname p randnum = Some []).
Proof.
  intros Hp. rewrite (randname_at header body) by done.
  destruct (init_inv _ _ _ Hp) as (_ & _ & Hnames).
  apply Forall2_length in Hnames. split.
  - intros Hlt.
    destruct (lookup_lt_is_Some_2 (Pokemon.names p) randnum) as [name Hname];
      [lia|].
    exists name. by rewrite Hname.
  - intros Hge. by rewrite lookup_ge_None_2 by lia.
Qed.

Lemma randname_nth_witness :
  let header := [py "#"; py "Name"] in
  let body := [[py "1"; py "Bulbasaur"]; [py "4"; py "Charmander"]] in
  let p := Pokemon.mk (Some header) [py "Bulbasaur"; py "Charmander"]
             [(1%nat, [py "1"; py "Bulbasaur"]); (2%nat, [py "4"; py "Charmander"])] in
  Pokemon.init (header :: body) = Some p ∧
  ((1 < length body)%nat →
   ∃ name, Pokemon.names p !! 1%nat = Some name ∧
           Pokemon.randname p 1 = Some name) ∧
  ((length body ≤ 1)%nat → Pokemon.randname p 1 = Some []).
Proof.
  cbv zeta. split; [by vm_compute|].
  by apply (randname_nth [py "#"; py "Name"]
              [[py "1"; py "Bulbasaur"]; [py "4"; py "Charmander"]]).
Defined.

(** * Further properties of the suggestions *)

Lemma edit_distance_zero a b : edit_distance a b = 0 ↔ lower a = lower b.
Proof.
  unfold edit_distance. split.
  - intros H. assert (H0 : lev_rec (reverse (lower b)) (reverse (lower a)) = 0%nat)
      by lia.
    apply lev_rec_zero in H0. by apply (inj reverse).
  - intros ->. by rewrite lev_rec_refl.
Qed.

(** What [suggestions] returns comes from the candidates, and is not
    empty when there are candidates. *)
Lemma suggestions_result db q :
  ∃ out, suggestions db q = Some out ∧
         (∀ w, w ∈ out → w ∈ db) ∧ (db ≠ [] → out ≠ []).
Proof.
  destruct (decide (filter (direct_hit q) db = [])) as [Hnone|Hsome].
  - destruct db as [|w0 db]; [exists []; by repeat split|].
    destruct (suggestions_fallback (w0 :: db) q Hnone)
      as (least & (w & Hw & Hd) & _ & Hrun); [done|].
    eexists. split; [done|]. split.
    + intros x [_ Hx]%list_elem_of_filter. by apply elem_of_first_occurrences.
    + intros _ Hnil.
      assert (Hin : w ∈ filter (λ w, edit_distance q w = least)
                        (first_occurrences (w0 :: db))).
      { apply list_elem_of_filter. split; [done|].
        by apply elem_of_first_occurrences. }
      rewrite Hnil in Hin. by apply elem_of_nil in Hin.
  - exists (filter (direct_hit q) db). split; [by apply suggestions_direct|].
    split; [|done]. by intros x [_ Hx]%list_elem_of_filter.
Qed.

(** X10. With at least one candidate there is at least one suggestion,
    whatever the query. *)
Theorem suggestions_nonempty (word : str) (database : list str) (user_input : str) :
  ∃ first rest, suggestions (word :: database) user_input = Some (first :: rest).
Proof.
  destruct (suggestions_result (word :: database) user_input)
    as (out & Hrun & _ & Hne).
  destruct out as [|first rest]; [by destruct Hne|]. by exists first, rest.
Qed.

(** X11. A query that is a candidate up to letter case, and that the
    substring pass misses, is answered with the candidates equal to it up
    to letter case, and with nothing else. *)
Theorem suggestions_same_name (database : list str) (user_input word : str) :
  word ∈ database → lower word = lower user_input →
  direct_pass database user_input = Some [] →
  ∃ out, suggestions database user_input = Some out ∧
         ∀ w, w ∈ out ↔ w ∈ database ∧ lower w = lower user_input.
Proof.
  intros Hword Heq Hdirect. rewrite direct_pass_eq in Hdirect.
  injection Hdirect as Hnone.
  destruct (suggestions_fallback database user_input Hnone)
    as (least & (w0 & _ & Hw0) & Hle & Hrun);
    [by intros ->; apply elem_of_nil in Hword|].
  assert (least = 0) as ->.
  { specialize (Hle word Hword).
    assert (edit_distance user_input word = 0) by (by apply edit_distance_zero).
    unfold edit_distance in *. lia. }
  eexists. split; [done|]. intros w.
  rewrite list_elem_of_filter, elem_of_first_occurrences, edit_distance_zero.
  split; intros [? ?]; by split.
Qed.

Lemma suggestions_same_name_witness :
  let database := [py "Pikachu"; py "Raichu"] in
  py "Pikachu" ∈ database ∧
  lower (py "Pikachu") = lower (py "PIKACHU") ∧
  direct_pass database (py "PIKACHU") = Some [] ∧
  ∃ out, suggestions database (py "PIKACHU") = Some out ∧
         ∀ w, w ∈ out ↔ w ∈ database ∧ lower w = lower (py "PIKACHU").
Proof.
  cbv zeta.
  assert (Hin : py "Pikachu" ∈ [py "Pikachu"; py "Raichu"])
    by (apply elem_of_cons; by left).
  split; [exact Hin|]. split; [by vm_compute|]. split; [by vm_compute|].
  apply (suggestions_same_name _ _ (py "Pikachu"));
    [exact Hin|by vm_compute|by vm_compute].
Defined.

(** * The application *)

(** On a loaded dataset [get] does not raise: it returns [None], or the
    record of the first row named [find] up to case, which is not empty
    when there are headers. *)
Lemma get_loaded header body p find :
  Pokemon.init (header :: body) = Some p → header ≠ [] →
  Pokemon.get p find = Some None ∨
  ∃ pre row post,
    body = pre ++ row :: post ∧
    Forall (other_name find) pre ∧ has_name find row ∧
    Pokemon.fill_info header row ≠ [] ∧
    Pokemon.get p find = Some (Some (Pokemon.fill_info header row)).
Proof.
  intros Hp Hheader. destruct (init_inv _ _ _ Hp) as (Hh & Hv & _).
  unfold Pokemon.get. rewrite Hv.
  destruct (first_has_name find body (loaded_rows_named _ _ _ Hp))
    as [Hall|(pre & row & post & -> & Hpre & Hrow)].
  - left. by apply get_loop_missing.
  - right. exists pre, row, post. rewrite (get_loop_found _ header) by done.
    repeat split; try done.
    destruct Hrow as (f & Hf & _). destruct row as [|v row]; [done|].
    destruct header as [|h header]; [done|]. apply fill_info_not_nil.
Qed.

Lemma showinfo_found fuel self arg out info :
  Pokemon.get (App.pokemon self) arg = Some (Some info) → info ≠ [] →
  App.showinfo (S fuel) self arg out = Some (out ++ App.found_lines self info).
Proof.
  intros Hget Hinfo. cbn [App.showinfo]. rewrite Hget.
  cbn [mbind option_bind]. by destruct info.
Qed.

Lemma showinfo_missing fuel self arg out :
  Pokemon.get (App.pokemon self) arg = Some None →
  App.showinfo (S fuel) self arg out =
    suggestions ← suggestions (Pokemon.names (App.pokemon self)) (App.userinput self);
    if decide (length suggestions = 1%nat) then
      first ← suggestions !! 0%nat;
      App.showinfo fuel self first
        (out ++ [py "Showing results for '" ++ first ++
                 py "' instead of" ++ newline ++
                 py "'" ++ App.userinput self ++ py "'" ++ newline])
    else if decide (length suggestions ≤ 5)%nat then
      Some (out ++
            (py "Pokemon Not Found! Can't find '" ++ App.userinput self ++
             py "'." ++ newline ++ newline ++ py "Did you mean?") ::
            ((λ suggestion, [226; 8212; 32]%N ++ suggestion) <$> suggestions))
    else
      Some (out ++ [py "There are " ++ format_int (length suggestions) ++
                    py " matches found for your" ++ newline ++
                    py "query, please be more specific!" ++ newline]).
Proof. intros Hget. cbn [App.showinfo]. by rewrite Hget. Qed.

(** X12. A single suggestion is followed once: when [get] does not find the
    input and [suggestions] returns one name, [showinfo] announces the
    correction and then prints the record of that name, under a heading
    that still names what the user typed. *)
Theorem showinfo_follows_correction (header : list str)
    (body : list (list str)) (self : App.t) (arg suggestion : str)
    (out : stdout) (fuel : nat) :
  Pokemon.init (header :: body) = Some (App.pokemon self) → header ≠ [] →
  Pokemon.get (App.pokemon self) arg = Some None →
  suggestions (Pokemon.names (App.pokemon self)) (App.userinput self)
    = Some [suggestion] →
  ∃ pre row post,
    body = pre ++ row :: post ∧
    Forall (other_name suggestion) pre ∧ has_name suggestion row ∧
    App.showinfo (S (S fuel)) self arg out =
      Some (out ++
            [py "Showing results for '" ++ suggestion ++
             py "' instead of" ++ newline ++
             py "'" ++ App.userinput self ++ py "'" ++ newline] ++
            App.found_lines self (Pokemon.fill_info header row)).
Proof.
  intros Hp Hheader Hget Hsug.
  rewrite showinfo_missing, Hsug by done. cbn [mbind option_bind length].
  rewrite decide_True by done. cbn [lookup list_lookup mbind option_bind].
  destruct (suggestions_result (Pokemon.names (App.pokemon self))
              (App.userinput self)) as (o & Ho & Hin & _).
  rewrite Hsug in Ho. injection Ho as <-.
  assert (Hname : suggestion ∈ Pokemon.names (App.pokemon self))
    by (apply Hin, elem_of_cons; by left).
  destruct (get_loaded _ _ _ suggestion Hp Hheader)
    as [Hnone|(pre & row & post & -> & Hpre & Hrow & Hne & Hfound)].
  - by destruct (get_none_iff_names header _ _ _ Hp Hnone suggestion Hname).
  - exists pre, row, post. repeat split; try done.
    rewrite (showinfo_found _ _ _ _ _ Hfound Hne). by rewrite <-app_assoc.
Qed.

Lemma showinfo_follows_correction_witness :
  let header := [py "#"; py "Name"] in
  let body := [[py "1"; py "Bulbasaur"]; [py "2"; py "Ivysaur"]] in
  let p := Pokemon.mk (Some header) [py "Bulbasaur"; py "Ivysaur"]
             [(1%nat, [py "1"; py "Bulbasaur"]); (2%nat, [py "2"; py "Ivysaur"])] in
  let self := App.mk p [] (py "ivisaur") (py "ivisaur") in
  Pokemon.init (header :: body) = Some (App.pokemon self) ∧ header ≠ [] ∧
  Pokemon.get (App.pokemon self) (py "ivisaur") = Some None ∧
  suggestions (Pokemon.names (App.pokemon self)) (App.userinput self)
    = Some [py "Ivysaur"] ∧
  ∃ pre row post,
    body = pre ++ row :: post ∧
    Forall (other_name (py "Ivysaur")) pre ∧ has_name (py "Ivysaur") row ∧
    App.showinfo 2 self (py "ivisaur") [] =
      Some ([] ++
            [py "Showing results for '" ++ py "Ivysaur" ++
             py "' instead of" ++ newline ++
             py "'" ++ App.userinput self ++ py "'" ++ newline] ++
            App.found_lines self (Pokemon.fill_info header row)).
Proof.
  cbv zeta. split; [by vm_compute|]. split; [done|].
  split; [by vm_compute|]. split; [by vm_compute|].
  apply (showinfo_follows_correction [py "#"; py "Name"]
           [[py "1"; py "Bulbasaur"]; [py "2"; py "Ivysaur"]]
           (App.mk _ [] (py "ivisaur") (py "ivisaur")) (py "ivisaur")
           (py "Ivysaur") [] 0);
    [by vm_compute|done|by vm_compute|by vm_compute].
Defined.

(** X13. [showinfo] returns: on a loaded dataset with a header row that is
    not empty it raises no error and calls itself at most once, so two
    levels of calls print everything, whatever the input. *)
Theorem showinfo_returns (header : list str) (body : list (list str))
    (self : App.t) (arg : str) (out : stdout) :
  Pokemon.init (header :: body) = Some (App.pokemon self) → header ≠ [] →
  ∃ printed, ∀ fuel, App.showinfo (S (S fuel)) self arg out = Some printed.
Proof.
  intros Hp Hheader.
  destruct (get_loaded _ _ _ arg Hp Hheader)
    as [Hnone|(pre & row & post & -> & Hpre & Hrow & Hne & Hfound)].
  2:{ eexists. intros fuel. by apply showinfo_found. }
  destruct (suggestions_result (Pokemon.names (App.pokemon self))
              (App.userinput self)) as (o & Ho & Hin & _).
  destruct (decide (length o = 1%nat)) as [Hone|Hmore].
  - destruct o as [|s [|? ?]]; try done.
    assert (Hname : s ∈ Pokemon.names (App.pokemon self))
      by (apply Hin, elem_of_cons; by left).
    destruct (get_loaded _ _ _ s Hp Hheader)
      as [Hnone'|(pre & row & post & -> & Hpre & Hrow & Hne & Hfound)].
    { by destruct (get_none_iff_names header _ _ _ Hp Hnone' s Hname). }
    eexists. intros fuel. rewrite showinfo_missing, Ho by done.
    cbn [mbind option_bind length]. rewrite decide_True by done.
    cbn [lookup list_lookup mbind option_bind].
    by apply showinfo_found.
  - destruct (decide (length o ≤ 5)%nat) as [Hfew|Hmany].
    + eexists. intros fuel. rewrite showinfo_missing, Ho by done.
      cbn [mbind option_bind]. rewrite decide_False, decide_True by done. done.
    + eexists. intros fuel. rewrite showinfo_missing, Ho by done.
      cbn [mbind option_bind]. rewrite !decide_False by done. done.
Qed.

Lemma showinfo_returns_witness :
  let header := [py "#"; py "Name"] in
  let body := [[py "1"; py "Bulbasaur"]; [py "2"; py "Ivysaur"]] in
  let p := Pokemon.mk (Some header) [py "Bulbasaur"; py "Ivysaur"]
             [(1%nat, [py "1"; py "Bulbasaur"]); (2%nat, [py "2"; py "Ivysaur"])] in
  let self := App.mk p [] (py "saur") (py "saur") in
  Pokemon.init (header :: body) = Some (App.pokemon self) ∧ header ≠ [] ∧
  ∃ printed, ∀ fuel, App.showinfo (S (S fuel)) self (py "saur") [] = Some printed.
Proof.
  cbv zeta. split; [by vm_compute|]. split; [done|].
  apply (showinfo_returns [py "#"; py "Name"]
           [[py "1"; py "Bulbasaur"]; [py "2"; py "Ivysaur"]]
           (App.mk _ [] (py "saur") (py "saur")));
    [by vm_compute|done].
Defined.

(** X14. An empty input line shows a random record: when every row after the
    first has its two fields, the header row is not empty and the number
    drawn is below the number of records, the program announces the name
    in that row and prints the record of the first row with that name up
    to letter case, without asking for suggestions. *)
Theorem random_pick (header : list str) (body : list (list str))
    (randnum fuel : nat) :
  Forall (λ row, 2 ≤ length row)%nat body → header ≠ [] →
  (randnum < length body)%nat →
  ∃ name pre row post,
    (body !! randnum ≫= λ each, each !! 1%nat) = Some name ∧
    body = pre ++ row :: post ∧
    Forall (other_name name) pre ∧ has_name name row ∧
    App.init (S fuel) (header :: body) randnum [] =
      Some ((py "Picking a random name '" ++ name ++ py "'" ++ newline) ::
            ((λ kv, format_s 8 (py " ") ++ format_s 10 kv.1 ++ py " " ++ kv.2)
               <$> Pokemon.fill_info header row)).
Proof.
  intros Hrows Hheader Hlt.
  assert (Hsome : is_Some (Pokemon.init (header :: body))).
  { rewrite init_cons, fmap_is_Some, mapM_is_Some.
    eapply Forall_impl; [done|]. intros row Hrow. simpl in *.
    apply lookup_lt_is_Some. lia. }
  destruct Hsome as [p Hp].
  destruct (init_inv _ _ _ Hp) as (_ & _ & Hnames).
  destruct (lookup_lt_is_Some_2 body randnum Hlt) as [each Heach].
  destruct (Forall2_lookup_l _ _ _ _ _ Hnames Heach) as (name & Hname & Hfield).
  assert (Hin : name ∈ Pokemon.names p) by (by eapply list_elem_of_lookup_2).
  destruct (get_loaded _ _ _ name Hp Hheader)
    as [Hnone|(pre & row & post & -> & Hpre & Hrow & Hne & Hfound)].
  { by destruct (get_none_iff_names header _ _ _ Hp Hnone name Hin). }
  exists name, pre, row, post.
  split; [by rewrite Heach|]. repeat split; try done.
  unfold App.init. rewrite Hp. cbn [mbind option_bind].
  rewrite (randname_at header (pre ++ row :: post)), Hname by done.
  cbn [default from_option id mbind option_bind]. rewrite decide_True by done.
  rewrite (showinfo_found fuel (App.mk p name [] name) name [] _ Hfound Hne).
  unfold App.found_lines. cbn [App.user App.userinput].
  by rewrite decide_True.
Qed.

Lemma random_pick_witness :
  let header := [py "#"; py "Name"] in
  let body := [[py "1"; py "Bulbasaur"]; [py "2"; py "Ivysaur"]] in
  Forall (λ row, 2 ≤ length row)%nat body ∧ header ≠ [] ∧
  (1 < length body)%nat ∧
  ∃ name pre row post,
    (body !! 1%nat ≫= λ each, each !! 1%nat) = Some name ∧
    body = pre ++ row :: post ∧
    Forall (other_name name) pre ∧ has_name name row ∧
    App.init 1 (header :: body) 1 [] =
      Some ((py "Picking a random name '" ++ name ++ py "'" ++ newline) ::
            ((λ kv, format_s 8 (py " ") ++ format_s 10 kv.1 ++ py " " ++ kv.2)
               <$> Pokemon.fill_info header row)).
Proof.
  cbv zeta.
  assert (Hrows : Forall (λ row : list str, 2 ≤ length row)%nat
                    [[py "1"; py "Bulbasaur"]; [py "2"; py "Ivysaur"]]).
  { repeat constructor. }
  split; [exact Hrows|]. split; [done|]. split; [simpl; lia|].
  apply (random_pick [py "#"; py "Name"] _ 1 0 Hrows); [done|simpl; lia].
Defined.

(** X15. A dataset without records, empty or with its header row alone:
    whatever the line typed and the number drawn, the program prints the
    not-found message with the line and no suggestion after it. *)
Theorem no_records (fuel randnum : nat) (line : str) (header : list str) :
  let message := py "Pokemon Not Found! Can't find '" ++ line ++
                 py "'." ++ newline ++ newline ++ py "Did you mean?" in
  App.init (S fuel) [] randnum line = Some [message] ∧
  App.init (S fuel) [header] randnum line = Some [message].
Proof.
  cbv zeta.
  assert (Hline : (if decide (line = []) then [] else line) = line)
    by (by destruct (decide (line = [])) as [->|]).
  split; unfold App.init;
    cbn [Pokemon.init Pokemon.fetch length seq zip zip_with for_in
         Pokemon.fetch_row mbind option_bind fst snd
         Pokemon.headers Pokemon.names Pokemon.stats
         Pokemon.randname values fmap list_fmap Pokemon.randname_loop];
    rewrite ?decide_True by done; cbn [mbind option_bind fst snd
         Pokemon.headers Pokemon.names Pokemon.stats
         Pokemon.randname values fmap list_fmap length seq zip zip_with
         Pokemon.randname_loop];
    rewrite Hline; done.
Qed.

(** X16. A line that names a record up to letter case shows it: on a
    dataset whose rows after the first all have two fields and whose
    header row is not empty, a non-empty input line equal up to case to
    the name of some row prints the heading with the line as typed,
    followed by one formatted line per field of the record of the first
    such row; suggestions are not consulted. *)
Theorem exact_input (header : list str) (pre post : list (list str))
    (row : list str) (randnum fuel : nat) (line : str) :
  Forall (λ row, 2 ≤ length row)%nat (pre ++ row :: post) → header ≠ [] →
  line ≠ [] → Forall (other_name line) pre → has_name line row →
  App.init (S fuel) (header :: pre ++ row :: post) randnum line =
    Some ((py "Showing info about '" ++ line ++ py "'" ++ newline) ::
          ((λ kv, format_s 8 (py " ") ++ format_s 10 kv.1 ++ py " " ++ kv.2)
             <$> Pokemon.fill_info header row)).
Proof.
  intros Hrows Hheader Hline Hpre Hrow.
  assert (Hsome : is_Some (Pokemon.init (header :: pre ++ row :: post))).
  { rewrite init_cons, fmap_is_Some, mapM_is_Some.
    eapply Forall_impl; [done|]. intros r Hr. simpl in *.
    apply lookup_lt_is_Some. lia. }
  destruct Hsome as [p Hp].
  destruct (init_inv _ _ _ Hp) as (Hh & Hv & _).
  assert (Hfound : Pokemon.get p line =
                     Some (Some (Pokemon.fill_info header row))).
  { unfold Pokemon.get. rewrite Hv. by apply get_loop_found. }
  assert (Hne : Pokemon.fill_info header row ≠ []).
  { destruct Hrow as (f & Hf & _). destruct row as [|v row]; [done|].
    destruct header as [|h header]; [done|]. apply fill_info_not_nil. }
  unfold App.init. rewrite Hp. cbn [mbind option_bind].
  rewrite (randname_at header (pre ++ row :: post)) by done.
  cbn [mbind option_bind]. rewrite decide_False by done.
  rewrite (showinfo_found fuel (App.mk p _ line line) line [] _ Hfound Hne).
  unfold App.found_lines. cbn [App.user App.userinput].
  by rewrite decide_False.
Qed.

Lemma exact_input_witness :
  let header := [py "#"; py "Name"] in
  let pre := [[py "1"; py "Bulbasaur"]] in
  let row := [py "2"; py "Ivysaur"] in
  Forall (λ row, 2 ≤ length row)%nat (pre ++ row :: []) ∧ header ≠ [] ∧
  py "IVYSAUR" ≠ [] ∧ Forall (other_name (py "IVYSAUR")) pre ∧
  has_name (py "IVYSAUR") row ∧
  App.init 1 (header :: pre ++ row :: []) 0 (py "IVYSAUR") =
    Some ((py "Showing info about '" ++ py "IVYSAUR" ++ py "'" ++ newline) ::
          ((λ kv, format_s 8 (py " ") ++ format_s 10 kv.1 ++ py " " ++ kv.2)
             <$> Pokemon.fill_info header row)).
Proof.
  cbv zeta.
  assert (Hrows : Forall (λ row : list str, 2 ≤ length row)%nat
                    ([[py "1"; py "Bulbasaur"]] ++ [py "2"; py "Ivysaur"] :: [])).
  { repeat constructor. }
  assert (Hpre : Forall (other_name (py "IVYSAUR")) [[py "1"; py "Bulbasaur"]]).
  { constructor; [|constructor]. exists (py "Bulbasaur"). split; [done|].
    by vm_compute. }
  assert (Hrow : has_name (py "IVYSAUR") [py "2"; py "Ivysaur"]).
  { exists (py "Ivysaur"). split; [done|]. by vm_compute. }
  split; [exact Hrows|]. split; [done|]. split; [done|].
  split; [exact Hpre|]. split; [exact Hrow|].
  by apply (exact_input [py "#"; py "Name"] [[py "1"; py "Bulbasaur"]] []
              [py "2"; py "Ivysaur"] 0 0 (py "IVYSAUR")).
Defined.
